(** * data-filling: the submission record lifecycle and its persistence contract

    A shallow embedding of the three builds of [App.jsx] found in the
    repository:

    - [Basic]  : [src/src/App.jsx], the plain remote build;
    - [Styled] : [src/unnamed/part_000], the remote build with the component
                 library, whose adapter wraps every request in [try]/[catch];
    - [Local]  : [src/unnamed/part_001], the build that persists into
                 [localStorage] under a key derived from the credentials.

    The browser is modelled as far as the code touches it: JavaScript strings
    are sequences of 16-bit code units, exceptions are explicit completions,
    [btoa], [encodeURIComponent], [JSON.stringify] and [JSON.parse] are
    executable functions, [localStorage] is a finite map with a quota, and the
    network is an oracle answering each request. *)

From Stdlib Require Import Ascii String NArith List Bool Lia.
From stdpp Require Import gmap strings list fin_maps.

Local Open Scope N_scope.

(** ** JavaScript values: strings of UTF-16 code units *)

Module JS.

(** A code unit is two octets; [hi] is zero exactly for the Latin-1 range. *)
Record char16 := Char16 { hi : ascii; lo : ascii }.

Global Instance char16_eq_dec : EqDecision char16.
Proof. solve_decision. Defined.

Global Instance char16_countable : Countable char16.
Proof.
  refine (inj_countable' (λ c, (hi c, lo c)) (λ p, Char16 p.1 p.2) _).
  by intros [].
Defined.

Abbreviation jsstring := (list char16).

Definition latin1 (a : ascii) : char16 := Char16 zero a.

(** A source-code literal, every character of which is ASCII. *)
Definition lit (s : string) : jsstring := latin1 <$> list_ascii_of_string s.

Definition code (c : char16) : N := N_of_ascii (hi c) * 256 + N_of_ascii (lo c).

Definition unit_of (n : N) : char16 :=
  Char16 (ascii_of_N (n / 256)) (ascii_of_N (n mod 256)).

Definition is_char (a : ascii) (c : char16) : bool := bool_decide (c = latin1 a).

Definition NUL : char16 := latin1 zero.

(** [!s] on a string: only the empty string is falsy. *)
Definition falsy (s : jsstring) : bool :=
  match s with [] => true | _ :: _ => false end.

(** The exceptions the modelled platform functions raise. *)
Inductive exn :=
  | InvalidCharacterError   (* btoa on a code unit above U+00FF *)
  | URIError                (* encodeURIComponent on a lone surrogate *)
  | SyntaxError             (* JSON.parse, Response.json *)
  | TypeError               (* fetch on a network failure; spread of a non-iterable *)
  | SecurityError           (* localStorage blocked *)
  | QuotaExceededError.     (* localStorage.setItem over quota *)

(** The outcome of evaluating an expression: a value or a thrown exception. *)
Inductive completion (A : Type) :=
  | Return (a : A)
  | Throw (e : exn).
Global Arguments Return {A} a.
Global Arguments Throw {A} e.

Global Instance completion_ret : MRet completion := @Return.
Global Instance completion_bind : MBind completion :=
  λ A B f m, match m with Return a => f a | Throw e => Throw e end.

(** [try { body } catch { return dflt }] *)
Definition try_catch {A} (body : completion A) (dflt : A) : A :=
  match body with Return a => a | Throw _ => dflt end.

Definition returns {A} (m : completion A) : bool :=
  match m with Return _ => true | Throw _ => false end.

End JS.
Import JS.

(** ** [btoa]: base64 of a binary string *)

Module Base64.

Definition alphabet : list ascii :=
  list_ascii_of_string
    "ABCDEFGHIJKLMNOPQRSTUVWXYZabcdefghijklmnopqrstuvwxyz0123456789+/".

Definition pad : ascii := "="%char.

(** The character of a six-bit group, most significant bit first. *)
Definition sextet (b5 b4 b3 b2 b1 b0 : bool) : ascii :=
  nth (N.to_nat (N_of_digits [b0; b1; b2; b3; b4; b5])) alphabet pad.

(** Three octets give four characters; a final group of one or two octets is
    zero-filled and padded. [Ascii] lists the bits least significant first. *)
Fixpoint encode (l : list ascii) : list ascii :=
  match l with
  | [] => []
  | [Ascii a0 a1 a2 a3 a4 a5 a6 a7] =>
      [sextet a7 a6 a5 a4 a3 a2; sextet a1 a0 false false false false; pad; pad]
  | [Ascii a0 a1 a2 a3 a4 a5 a6 a7; Ascii b0 b1 b2 b3 b4 b5 b6 b7] =>
      [sextet a7 a6 a5 a4 a3 a2; sextet a1 a0 b7 b6 b5 b4;
       sextet b3 b2 b1 b0 false false; pad]
  | Ascii a0 a1 a2 a3 a4 a5 a6 a7 :: Ascii b0 b1 b2 b3 b4 b5 b6 b7
      :: Ascii c0 c1 c2 c3 c4 c5 c6 c7 :: r =>
      sextet a7 a6 a5 a4 a3 a2 :: sextet a1 a0 b7 b6 b5 b4
        :: sextet b3 b2 b1 b0 c7 c6 :: sextet c5 c4 c3 c2 c1 c0 :: encode r
  end.

(** The octets of a binary string; fails on a code unit above U+00FF. *)
Fixpoint octets (s : jsstring) : completion (list ascii) :=
  match s with
  | [] => Return []
  | c :: r =>
      if bool_decide (hi c = zero)
      then bs ← octets r; Return (lo c :: bs)
      else Throw InvalidCharacterError
  end.

Definition btoa (s : jsstring) : completion jsstring :=
  bs ← octets s; Return (latin1 <$> encode bs).

End Base64.

(** ** JSON: values, [JSON.stringify] and [JSON.parse] *)

Module JSON.

(** A parsed JSON text. An object is its own properties in enumeration
    order. A number is kept as its literal: no claim depends on its numeric
    value, only on its not being an array. *)
#[warnings="-register-all"]
Inductive json :=
  | JNull
  | JBool (b : bool)
  | JNum (lexeme : jsstring)
  | JStr (s : jsstring)
  | JArr (elts : list json)
  | JObj (props : list (jsstring * json)).

Definition dquote : ascii := "034"%char.
Definition backslash : ascii := "092"%char.

Definition is_digit (c : char16) : bool := (48 <=? code c) && (code c <=? 57).
Definition is_control (c : char16) : bool := code c <? 32.
Definition is_high_surrogate (c : char16) : bool :=
  (55296 <=? code c) && (code c <=? 56319).
Definition is_low_surrogate (c : char16) : bool :=
  (56320 <=? code c) && (code c <=? 57343).

(** *** Property definition, as [CreateDataProperty] on an ordinary object:
    an existing key keeps its place, a new array index goes among the
    indices in ascending order, any other new key goes last. *)

Definition digit_value (c : char16) : N := code c - 48.

Definition array_index (k : jsstring) : option N :=
  match k with
  | [] => None
  | c :: r =>
      if forallb is_digit k && (negb (is_char "0" c) || bool_decide (r = []))
      then let n := fold_left (λ acc d, acc * 10 + digit_value d) k 0 in
           if n <? 4294967295 then Some n else None
      else None
  end.

Definition has_key (k : jsstring) (ps : list (jsstring * json)) : bool :=
  existsb (λ kv, bool_decide (kv.1 = k)) ps.

Definition set_existing (k : jsstring) (v : json) (ps : list (jsstring * json))
  : list (jsstring * json) :=
  (λ kv, if bool_decide (kv.1 = k) then (k, v) else kv) <$> ps.

Fixpoint insert_index (i : N) (k : jsstring) (v : json)
    (ps : list (jsstring * json)) : list (jsstring * json) :=
  match ps with
  | [] => [(k, v)]
  | kv :: r =>
      match array_index kv.1 with
      | Some j => if j <? i then kv :: insert_index i k v r else (k, v) :: ps
      | None => (k, v) :: ps
      end
  end.

Definition define_prop (k : jsstring) (v : json) (ps : list (jsstring * json))
  : list (jsstring * json) :=
  if has_key k ps then set_existing k v ps
  else match array_index k with
       | Some i => insert_index i k v ps
       | None => ps ++ [(k, v)]
       end.

(** *** [JSON.stringify] (no replacer, no indentation) *)

Definition hex_digits : list ascii := list_ascii_of_string "0123456789abcdef".

Definition hex2 (a : ascii) : jsstring :=
  [latin1 (nth (N.to_nat (N_of_ascii a / 16)) hex_digits "0"%char);
   latin1 (nth (N.to_nat (N_of_ascii a mod 16)) hex_digits "0"%char)].

(** [UnicodeEscape]: a backslash, [u] and four lowercase hex digits. *)
Definition uescape (c : char16) : jsstring :=
  latin1 backslash :: latin1 "u" :: hex2 (hi c) ++ hex2 (lo c).

(** The two-character escapes of [QuoteJSONString]. *)
Definition short_escape (c : char16) : option ascii :=
  if is_char "008" c then Some "b"%char
  else if is_char "009" c then Some "t"%char
  else if is_char "010" c then Some "n"%char
  else if is_char "012" c then Some "f"%char
  else if is_char "013" c then Some "r"%char
  else if is_char dquote c then Some dquote
  else if is_char backslash c then Some backslash
  else None.

Definition escape_unit (c : char16) : jsstring :=
  match short_escape c with
  | Some e => [latin1 backslash; latin1 e]
  | None => if is_control c then uescape c else [c]
  end.

(** A surrogate pair is copied; a lone surrogate is escaped. *)
Fixpoint quote_chars (s : jsstring) : jsstring :=
  match s with
  | [] => []
  | c :: r =>
      if is_high_surrogate c then
        match r with
        | d :: r' =>
            if is_low_surrogate d then c :: d :: quote_chars r'
            else uescape c ++ quote_chars r
        | [] => uescape c
        end
      else if is_low_surrogate c then uescape c ++ quote_chars r
      else escape_unit c ++ quote_chars r
  end.

Definition quote (s : jsstring) : jsstring :=
  latin1 dquote :: quote_chars s ++ [latin1 dquote].

Fixpoint join_comma (parts : list jsstring) : jsstring :=
  match parts with
  | [] => []
  | [p] => p
  | p :: ps => p ++ latin1 "," :: join_comma ps
  end.

Fixpoint stringify (v : json) : jsstring :=
  match v with
  | JNull => lit "null"
  | JBool true => lit "true"
  | JBool false => lit "false"
  | JNum n => n
  | JStr s => quote s
  | JArr l => latin1 "[" :: join_comma (map stringify l) ++ [latin1 "]"]
  | JObj ps =>
      latin1 "{"
        :: join_comma (map (λ kv, quote kv.1 ++ latin1 ":" :: stringify kv.2) ps)
        ++ [latin1 "}"]
  end.

(** A member [key:value] whose value is a string, as [stringify] prints it. *)
Definition member (k v : jsstring) : jsstring := quote k ++ latin1 ":" :: quote v.

(** *** [JSON.parse] (no reviver) *)

Definition is_ws (c : char16) : bool :=
  is_char " " c || is_char "009" c || is_char "010" c || is_char "013" c.

Fixpoint skip_ws (s : jsstring) : jsstring :=
  match s with
  | c :: r => if is_ws c then skip_ws r else s
  | [] => []
  end.

Definition hex_value (c : char16) : option N :=
  if is_digit c then Some (code c - 48)
  else if (97 <=? code c) && (code c <=? 102) then Some (code c - 87)
  else if (65 <=? code c) && (code c <=? 70) then Some (code c - 55)
  else None.

Definition unhex2 (d1 d2 : char16) : option ascii :=
  v1 ← hex_value d1; v2 ← hex_value d2; Some (ascii_of_N (v1 * 16 + v2)).

Definition unescape (e : char16) : option char16 :=
  if is_char dquote e then Some (latin1 dquote)
  else if is_char backslash e then Some (latin1 backslash)
  else if is_char "/" e then Some (latin1 "/")
  else if is_char "b" e then Some (latin1 "008")
  else if is_char "f" e then Some (latin1 "012")
  else if is_char "n" e then Some (latin1 "010")
  else if is_char "r" e then Some (latin1 "013")
  else if is_char "t" e then Some (latin1 "009")
  else None.

Definition push (c : char16) (p : option (jsstring * jsstring))
  : option (jsstring * jsstring) :=
  '(s, r) ← p; Some (c :: s, r).

(** The characters of a string up to its closing quote, and what follows. *)
Fixpoint parse_chars (s : jsstring) : option (jsstring * jsstring) :=
  match s with
  | [] => None
  | c :: r =>
      if is_char dquote c then Some ([], r)
      else if is_char backslash c then
        match r with
        | [] => None
        | e :: r1 =>
            if is_char "u" e then
              match r1 with
              | h1 :: h2 :: h3 :: h4 :: r2 =>
                  match unhex2 h1 h2, unhex2 h3 h4 with
                  | Some a, Some b => push (Char16 a b) (parse_chars r2)
                  | _, _ => None
                  end
              | _ => None
              end
            else
              match unescape e with
              | Some u => push u (parse_chars r1)
              | None => None
              end
        end
      else if is_control c then None
      else push c (parse_chars r)
  end.

Fixpoint span_digits (s : jsstring) : jsstring * jsstring :=
  match s with
  | c :: r =>
      if is_digit c then let '(ds, r') := span_digits r in (c :: ds, r')
      else ([], s)
  | [] => ([], [])
  end.

Definition some_digits (s : jsstring) : option (jsstring * jsstring) :=
  match span_digits s with
  | ([], _) => None
  | p => Some p
  end.

(** A leading character satisfying [p], if there is one. *)
Definition opt_char (p : char16 → bool) (s : jsstring) : jsstring * jsstring :=
  match s with
  | c :: r => if p c then ([c], r) else ([], s)
  | [] => ([], [])
  end.

(** The number grammar: an optional minus, an integer part without leading
    zeros, an optional fraction and an optional exponent. *)
Definition number_int (s : jsstring) : option (jsstring * jsstring) :=
  match s with
  | c :: r =>
      if is_char "0" c then Some ([c], r)
      else if is_digit c then let '(ds, r') := span_digits r in Some (c :: ds, r')
      else None
  | [] => None
  end.

Definition number_frac (s : jsstring) : option (jsstring * jsstring) :=
  match s with
  | c :: r =>
      if is_char "." c then '(ds, r') ← some_digits r; Some (c :: ds, r')
      else Some ([], s)
  | [] => Some ([], [])
  end.

Definition number_exp (s : jsstring) : option (jsstring * jsstring) :=
  match s with
  | c :: r =>
      if is_char "e" c || is_char "E" c then
        let '(sg, r1) := opt_char (λ d, is_char "+" d || is_char "-" d) r in
        '(ds, r2) ← some_digits r1; Some (c :: sg ++ ds, r2)
      else Some ([], s)
  | [] => Some ([], [])
  end.

Definition parse_number (s : jsstring) : option (jsstring * jsstring) :=
  let '(sign, s1) := opt_char (is_char "-") s in
  '(int, s2) ← number_int s1;
  '(frac, s3) ← number_frac s2;
  '(exp, s4) ← number_exp s3;
  Some (sign ++ int ++ frac ++ exp, s4).

Fixpoint strip_prefix (p s : jsstring) : option jsstring :=
  match p, s with
  | [], _ => Some s
  | a :: p', b :: s' => if bool_decide (a = b) then strip_prefix p' s' else None
  | _ :: _, [] => None
  end.

Definition parse_atom (s : jsstring) : option (json * jsstring) :=
  match strip_prefix (lit "null") s with
  | Some r => Some (JNull, r)
  | None =>
  match strip_prefix (lit "true") s with
  | Some r => Some (JBool true, r)
  | None =>
  match strip_prefix (lit "false") s with
  | Some r => Some (JBool false, r)
  | None => '(n, r) ← parse_number s; Some (JNum n, r)
  end end end.

(** Recursive descent; [fuel] bounds the nesting of the calls. *)
Fixpoint parse_value (fuel : nat) (s : jsstring) : option (json * jsstring) :=
  match fuel with
  | O => None
  | S fuel =>
      match skip_ws s with
      | [] => None
      | c :: r =>
          if is_char dquote c then '(str, r') ← parse_chars r; Some (JStr str, r')
          else if is_char "[" c then
            match skip_ws r with
            | [] => None
            | c' :: r' =>
                if is_char "]" c' then Some (JArr [], r')
                else '(vs, r'') ← parse_elements fuel r; Some (JArr vs, r'')
            end
          else if is_char "{" c then
            match skip_ws r with
            | [] => None
            | c' :: r' =>
                if is_char "}" c' then Some (JObj [], r')
                else '(ps, r'') ← parse_members fuel [] r; Some (JObj ps, r'')
            end
          else parse_atom (c :: r)
      end
  end
with parse_elements (fuel : nat) (s : jsstring) : option (list json * jsstring) :=
  match fuel with
  | O => None
  | S fuel =>
      '(v, r) ← parse_value fuel s;
      match skip_ws r with
      | [] => None
      | c :: r' =>
          if is_char "," c then '(vs, r'') ← parse_elements fuel r'; Some (v :: vs, r'')
          else if is_char "]" c then Some ([v], r')
          else None
      end
  end
with parse_members (fuel : nat) (acc : list (jsstring * json)) (s : jsstring)
  : option (list (jsstring * json) * jsstring) :=
  match fuel with
  | O => None
  | S fuel =>
      match skip_ws s with
      | [] => None
      | c :: r =>
          if is_char dquote c then
            '(k, r1) ← parse_chars r;
            match skip_ws r1 with
            | [] => None
            | c1 :: r2 =>
                if is_char ":" c1 then
                  '(v, r3) ← parse_value fuel r2;
                  match skip_ws r3 with
                  | [] => None
                  | c3 :: r4 =>
                      if is_char "," c3
                      then parse_members fuel (define_prop k v acc) r4
                      else if is_char "}" c3
                      then Some (define_prop k v acc, r4)
                      else None
                  end
                else None
            end
          else None
      end
  end.

Definition parse (text : jsstring) : completion json :=
  match parse_value (2 * length text + 2) text with
  | Some (v, r) =>
      match skip_ws r with
      | [] => Return v
      | _ :: _ => Throw SyntaxError
      end
  | None => Throw SyntaxError
  end.

End JSON.
Import JSON.

(** ** [encodeURIComponent] *)

Module URI.

Definition unreserved (c : char16) : bool :=
  (65 <=? code c) && (code c <=? 90) || (97 <=? code c) && (code c <=? 122)
  || is_digit c
  || existsb (λ a, is_char a c) (list_ascii_of_string "-_.!~*'()").

Definition upper_hex : list ascii := list_ascii_of_string "0123456789ABCDEF".

Definition percent (octet : N) : jsstring :=
  [latin1 "%";
   latin1 (nth (N.to_nat (octet / 16)) upper_hex "0"%char);
   latin1 (nth (N.to_nat (octet mod 16)) upper_hex "0"%char)].

Definition utf8 (cp : N) : list N :=
  if cp <? 128 then [cp]
  else if cp <? 2048 then [192 + cp / 64; 128 + cp mod 64]
  else if cp <? 65536 then
    [224 + cp / 4096; 128 + (cp / 64) mod 64; 128 + cp mod 64]
  else
    [240 + cp / 262144; 128 + (cp / 4096) mod 64; 128 + (cp / 64) mod 64;
     128 + cp mod 64].

Definition pair_code_point (h l : char16) : N :=
  65536 + (code h - 55296) * 1024 + (code l - 56320).

Definition escape (cp : N) : jsstring := concat (percent <$> utf8 cp).

Fixpoint encodeURIComponent (s : jsstring) : completion jsstring :=
  match s with
  | [] => Return []
  | c :: r =>
      if unreserved c then t ← encodeURIComponent r; Return (c :: t)
      else if is_low_surrogate c then Throw URIError
      else if is_high_surrogate c then
        match r with
        | d :: r' =>
            if is_low_surrogate d
            then t ← encodeURIComponent r'; Return (escape (pair_code_point c d) ++ t)
            else Throw URIError
        | [] => Throw URIError
        end
      else t ← encodeURIComponent r; Return (escape (code c) ++ t)
  end.

End URI.

(** ** [localStorage] *)

Module Storage.

(** [blocked]: every access throws (storage disabled for the page).
    [quota]: the number of code units, keys and values together, the store
    may hold. *)
Record t := { blocked : bool; quota : N; items : gmap jsstring jsstring }.

Definition usage (m : gmap jsstring jsstring) : N :=
  map_fold (λ k v n, n + N.of_nat (length k + length v)) 0 m.

Definition getItem (st : t) (key : jsstring) : completion (option jsstring) :=
  if blocked st then Throw SecurityError else Return (items st !! key).

Definition setItem (st : t) (key value : jsstring) : completion t :=
  if blocked st then Throw SecurityError
  else
    let m := <[key := value]> (items st) in
    if usage m <=? quota st
    then Return {| blocked := false; quota := quota st; items := m |}
    else Throw QuotaExceededError.

End Storage.

(** ** The network, and handlers that talk to it *)

Module Net.

Inductive http_method := GET | POST.

Record Request := {
  method : http_method;
  url : jsstring;
  headers : list (jsstring * jsstring);
  body : option jsstring
}.

Record Response := { status : N; text : jsstring }.

(** [res.ok]: the status is in the range 200-299. *)
Definition ok (res : Response) : bool :=
  (200 <=? status res) && (status res <=? 299).

(** [res.json()] *)
Definition json_of (res : Response) : completion json := JSON.parse (text res).

(** What becomes of one request: the promise of [fetch] rejects, or resolves
    with a response of any status. *)
Inductive outcome := NetworkError | Responds (res : Response).

Definition Network := Request → outcome.

Definition resolves (o : outcome) : bool :=
  match o with Responds _ => true | NetworkError => false end.

(** The component state of the running render and the requests issued. *)
Record World (S : Type) := { state : S; sent : list Request }.
Global Arguments state {S} w.
Global Arguments sent {S} w.

(** An event handler: it may set component state, issue requests and throw
    (for an [async] handler: reject). State set before a throw stays set. *)
Definition M (S A : Type) : Type := Network → World S → completion A * World S.

Global Instance M_ret {S} : MRet (M S) := λ A a net w, (Return a, w).
Global Instance M_bind {S} : MBind (M S) :=
  λ A B f m net w,
    match m net w with
    | (Return a, w') => f a net w'
    | (Throw e, w') => (Throw e, w')
    end.

Definition lift {S A} (c : completion A) : M S A := λ net w, (c, w).

(** A state setter of [useState]. *)
Definition set_state {S} (f : S → S) : M S unit :=
  λ net w, (Return (), {| state := f (state w); sent := sent w |}).

Definition fetch {S} (req : Request) : M S Response :=
  λ net w,
    (match net req with
     | NetworkError => Throw TypeError
     | Responds res => Return res
     end,
     {| state := state w; sent := sent w ++ [req] |}).

(** [try { body } catch { return dflt }] around awaited code. *)
Definition try_catch_M {S A} (body : M S A) (dflt : A) : M S A :=
  λ net w,
    match body net w with
    | (Return a, w') => (Return a, w')
    | (Throw _, w') => (Return dflt, w')
    end.

(** Run a handler of the render whose state is [s]. *)
Definition dispatch {S A} (net : Network) (s : S) (handler : S → M S A)
  : completion A * World S :=
  handler s net {| state := s; sent := [] |}.

End Net.
Import Net.

(** ** What the three builds share: the form record and the spread syntax *)

(** The state of [FormPage], handed to [onSubmit]. *)
Record FormData := {
  name : jsstring;
  email : jsstring;
  phone : jsstring;
  address : jsstring;
  message : jsstring
}.

Definition form_props (d : FormData) : list (jsstring * json) :=
  [(lit "name", JStr (name d)); (lit "email", JStr (email d));
   (lit "phone", JStr (phone d)); (lit "address", JStr (address d));
   (lit "message", JStr (message d))].

(** The object [formData] as a value. *)
Definition obj (d : FormData) : json := JObj (form_props d).

Definition empty_form : FormData :=
  {| name := []; email := []; phone := []; address := []; message := [] |}.

(** [handleChange] of [FormPage]: [{ ...formData, [e.target.name]: e.target.value }]
    for the five named inputs. *)
Inductive field := Name | Email | Phone | Address | Message.

Definition handleChange (formData : FormData) (target : field) (value : jsstring)
  : FormData :=
  match target with
  | Name => {| name := value; email := email formData; phone := phone formData;
               address := address formData; message := message formData |}
  | Email => {| name := name formData; email := value; phone := phone formData;
                address := address formData; message := message formData |}
  | Phone => {| name := name formData; email := email formData; phone := value;
                address := address formData; message := message formData |}
  | Address => {| name := name formData; email := email formData;
                  phone := phone formData; address := value;
                  message := message formData |}
  | Message => {| name := name formData; email := email formData;
                  phone := phone formData; address := address formData;
                  message := value |}
  end.

(** The strings a string iterator yields: one per code point. *)
Fixpoint code_points (s : jsstring) : list jsstring :=
  match s with
  | [] => []
  | c :: r =>
      if is_high_surrogate c then
        match r with
        | d :: r' =>
            if is_low_surrogate d then [c; d] :: code_points r'
            else [c] :: code_points r
        | [] => [[c]]
        end
      else [c] :: code_points r
  end.

(** [[...v]]: arrays and strings are iterable, nothing else in JSON is. *)
Definition spread (v : json) : completion (list json) :=
  match v with
  | JArr l => Return l
  | JStr s => Return (JStr <$> code_points s)
  | _ => Throw TypeError
  end.

(** [{ username, ...data }] *)
Definition with_username (username : jsstring) (data : FormData)
  : list (jsstring * json) :=
  fold_left (λ acc kv, define_prop kv.1 kv.2 acc) (form_props data)
    [(lit "username", JStr username)].

Definition required_message : jsstring := lit "Username and password are required".

Inductive page := FormTab | ViewTab.

(** ** [src/src/App.jsx]: the plain remote build *)

Module Basic.

Record AppState := {
  loggedIn : bool;
  loginError : jsstring;
  submissions : json;
  currentPage : page;
  username : jsstring
}.

Definition initial : AppState :=
  {| loggedIn := false; loginError := []; submissions := JArr [];
     currentPage := FormTab; username := [] |}.

Definition setLoggedIn (b : bool) : M AppState unit :=
  set_state (λ s, {| loggedIn := b; loginError := loginError s;
                     submissions := submissions s; currentPage := currentPage s;
                     username := username s |}).
Definition setLoginError (e : jsstring) : M AppState unit :=
  set_state (λ s, {| loggedIn := loggedIn s; loginError := e;
                     submissions := submissions s; currentPage := currentPage s;
                     username := username s |}).
Definition setSubmissions (v : json) : M AppState unit :=
  set_state (λ s, {| loggedIn := loggedIn s; loginError := loginError s;
                     submissions := v; currentPage := currentPage s;
                     username := username s |}).
Definition setCurrentPage (p : page) : M AppState unit :=
  set_state (λ s, {| loggedIn := loggedIn s; loginError := loginError s;
                     submissions := submissions s; currentPage := p;
                     username := username s |}).
Definition setUsername (u : jsstring) : M AppState unit :=
  set_state (λ s, {| loggedIn := loggedIn s; loginError := loginError s;
                     submissions := submissions s; currentPage := currentPage s;
                     username := u |}).

Definition get_request (query : jsstring) : Request :=
  {| method := GET; url := lit "/api/submissions?username=" ++ query;
     headers := []; body := None |}.

Definition post_request (username : jsstring) (data : FormData) : Request :=
  {| method := POST; url := lit "/api/submissions";
     headers := [(lit "Content-Type", lit "application/json")];
     body := Some (stringify (JObj (with_username username data))) |}.

Definition fetchSubmissions (username : jsstring) : M AppState json :=
  query ← lift (URI.encodeURIComponent username);
  res ← fetch (get_request query);
  if ok res then lift (json_of res) else mret (JArr []).

Definition postSubmission (username : jsstring) (data : FormData) : M AppState unit :=
  fetch (post_request username data);; mret ().

Definition handleLogin (user password : jsstring) (render : AppState)
  : M AppState unit :=
  if falsy user || falsy password then setLoginError required_message
  else
    setUsername user;;
    v ← fetchSubmissions user;
    setSubmissions v;;
    setLoggedIn true;;
    setLoginError [].

Definition handleLogout (render : AppState) : M AppState unit :=
  setLoggedIn false;;
  setCurrentPage FormTab;;
  setUsername [];;
  setSubmissions (JArr []).

Definition handleFormSubmit (formData : FormData) (render : AppState)
  : M AppState unit :=
  postSubmission (username render) formData;;
  l ← lift (spread (submissions render));
  setSubmissions (JArr (l ++ [obj formData])).

End Basic.

(** ** [src/unnamed/part_000]: the remote build whose adapter catches *)

Module Styled.

Record AppState := {
  loggedIn : bool;
  loginError : jsstring;
  submissions : json;
  username : jsstring
}.

Definition initial : AppState :=
  {| loggedIn := false; loginError := []; submissions := JArr []; username := [] |}.

Definition setLoggedIn (b : bool) : M AppState unit :=
  set_state (λ s, {| loggedIn := b; loginError := loginError s;
                     submissions := submissions s; username := username s |}).
Definition setLoginError (e : jsstring) : M AppState unit :=
  set_state (λ s, {| loggedIn := loggedIn s; loginError := e;
                     submissions := submissions s; username := username s |}).
Definition setSubmissions (v : json) : M AppState unit :=
  set_state (λ s, {| loggedIn := loggedIn s; loginError := loginError s;
                     submissions := v; username := username s |}).
Definition setUsername (u : jsstring) : M AppState unit :=
  set_state (λ s, {| loggedIn := loggedIn s; loginError := loginError s;
                     submissions := submissions s; username := u |}).

Definition API_HEADERS : list (jsstring * jsstring) :=
  [(lit "Content-Type", lit "application/json");
   (lit "ngrok-skip-browser-warning", lit "true")].

Definition get_request (query : jsstring) : Request :=
  {| method := GET; url := lit "/api/submissions?username=" ++ query;
     headers := API_HEADERS; body := None |}.

Definition post_request (username : jsstring) (data : FormData) : Request :=
  {| method := POST; url := lit "/api/submissions"; headers := API_HEADERS;
     body := Some (stringify (JObj (with_username username data))) |}.

Definition fetchSubmissions (username : jsstring) : M AppState json :=
  try_catch_M
    (query ← lift (URI.encodeURIComponent username);
     res ← fetch (get_request query);
     if ok res then lift (json_of res) else mret (JArr []))
    (JArr []).

Definition postSubmission (username : jsstring) (data : FormData) : M AppState unit :=
  try_catch_M (fetch (post_request username data);; mret ()) ().

Definition handleLogin (user password : jsstring) (render : AppState)
  : M AppState unit :=
  if falsy user || falsy password then setLoginError required_message
  else
    setUsername user;;
    v ← fetchSubmissions user;
    setSubmissions v;;
    setLoggedIn true;;
    setLoginError [].

Definition handleLogout (render : AppState) : M AppState unit :=
  setLoggedIn false;;
  setUsername [];;
  setSubmissions (JArr []).

(** The request is issued without [await], after the list is set. *)
Definition handleFormSubmit (formData : FormData) (render : AppState)
  : M AppState unit :=
  l ← lift (spread (submissions render));
  setSubmissions (JArr (l ++ [obj formData]));;
  postSubmission (username render) formData.

End Styled.

(** ** [src/unnamed/part_001]: the build that persists into [localStorage] *)

Module Local.

(** [typeof btoa === 'function'] *)
Record Platform := { btoa_defined : bool }.

Definition browser : Platform := {| btoa_defined := true |}.

Definition getSubmissionsStorageKey (env : Platform) (username password : jsstring)
  : completion jsstring :=
  let raw := username ++ NUL :: password in
  encoded ← (if btoa_defined env then Base64.btoa raw else Return raw);
  Return (lit "submissions:" ++ encoded).

(** The [try] block of [loadSubmissions]. *)
Definition loadSubmissions_body (env : Platform) (st : Storage.t)
    (username password : jsstring) : completion (list json) :=
  key ← getSubmissionsStorageKey env username password;
  raw ← Storage.getItem st key;
  match raw with
  | None => Return []
  | Some text =>
      if falsy text then Return []
      else
        parsed ← JSON.parse text;
        Return (match parsed with JArr l => l | _ => [] end)
  end.

Definition loadSubmissions (env : Platform) (st : Storage.t)
    (username password : jsstring) : list json :=
  try_catch (loadSubmissions_body env st username password) [].

(** The [try] block of [saveSubmissions]. *)
Definition saveSubmissions_body (env : Platform) (st : Storage.t)
    (username password : jsstring) (submissions : list json) : completion Storage.t :=
  key ← getSubmissionsStorageKey env username password;
  Storage.setItem st key (stringify (JArr submissions)).

Definition saveSubmissions (env : Platform) (st : Storage.t)
    (username password : jsstring) (submissions : list json) : Storage.t :=
  try_catch (saveSubmissions_body env st username password submissions) st.

Record Auth := { username : jsstring; password : jsstring }.

Record AppState := {
  loggedIn : bool;
  loginError : jsstring;
  submissions : list json;
  currentPage : page;
  auth : Auth
}.

Definition initial : AppState :=
  {| loggedIn := false; loginError := []; submissions := [];
     currentPage := FormTab; auth := {| username := []; password := [] |} |}.

(** The component state together with the storage of the page. *)
Record World := { state : AppState; localStorage : Storage.t }.

Definition set_state (f : AppState → AppState) (w : World) : World :=
  {| state := f (state w); localStorage := localStorage w |}.

Definition setLoggedIn (b : bool) : World → World :=
  set_state (λ s, {| loggedIn := b; loginError := loginError s;
                     submissions := submissions s; currentPage := currentPage s;
                     auth := auth s |}).
Definition setLoginError (e : jsstring) : World → World :=
  set_state (λ s, {| loggedIn := loggedIn s; loginError := e;
                     submissions := submissions s; currentPage := currentPage s;
                     auth := auth s |}).
Definition setSubmissions (l : list json) : World → World :=
  set_state (λ s, {| loggedIn := loggedIn s; loginError := loginError s;
                     submissions := l; currentPage := currentPage s;
                     auth := auth s |}).
Definition setCurrentPage (p : page) : World → World :=
  set_state (λ s, {| loggedIn := loggedIn s; loginError := loginError s;
                     submissions := submissions s; currentPage := p;
                     auth := auth s |}).
Definition setAuth (a : Auth) : World → World :=
  set_state (λ s, {| loggedIn := loggedIn s; loginError := loginError s;
                     submissions := submissions s; currentPage := currentPage s;
                     auth := a |}).

(** A statement that writes the storage of the page. *)
Definition on_storage (f : Storage.t → Storage.t) (w : World) : World :=
  {| state := state w; localStorage := f (localStorage w) |}.

(** [w |> f |> g]: the statements [f] then [g], run from [w]. *)
Notation "w |> f" := (f w) (at level 45, left associativity, only parsing).

(** The handlers read the state of their render, [state w], whatever they
    have set in the meantime. *)
Definition handleLogin (env : Platform) (user pass : jsstring) (w : World) : World :=
  if falsy user || falsy pass then w |> setLoginError required_message
  else
    w |> setAuth {| username := user; password := pass |}
      |> setSubmissions (loadSubmissions env (localStorage w) user pass)
      |> setLoggedIn true
      |> setLoginError [].

Definition handleLogout (w : World) : World :=
  w |> setLoggedIn false
    |> setCurrentPage FormTab
    |> setAuth {| username := []; password := [] |}
    |> setSubmissions [].

Definition handleFormSubmit (env : Platform) (formData : FormData) (w : World)
  : World :=
  let render := state w in
  let next := submissions render ++ [obj formData] in
  w |> setSubmissions next
    |> on_storage (λ st, saveSubmissions env st (username (auth render))
                           (password (auth render)) next).

End Local.

(** ** Sessions: a sequence of submits, each in the render the previous left *)

Definition basic_submit_all (calls : list (Network * FormData)) (s : Basic.AppState)
  : Basic.AppState :=
  fold_left
    (λ s call, state (dispatch call.1 s (Basic.handleFormSubmit call.2)).2) calls s.

Definition styled_submit_all (calls : list (Network * FormData)) (s : Styled.AppState)
  : Styled.AppState :=
  fold_left
    (λ s call, state (dispatch call.1 s (Styled.handleFormSubmit call.2)).2) calls s.

Definition local_submit_all (env : Local.Platform) (records : list FormData)
    (w : Local.World) : Local.World :=
  fold_left (λ w formData, Local.handleFormSubmit env formData w) records w.

(** ** Concrete inputs *)

Module Scenario.

Definition alice : jsstring := lit "alice".
Definition secret : jsstring := lit "secret".
Definition hunter2 : jsstring := lit "hunter2".

(** The Greek capital omega, U+03A9: a code unit above U+00FF. *)
Definition omega : jsstring := [Char16 "003" "169"].

Definition bob : FormData :=
  {| name := lit "Bob"; email := lit "b@x.com"; phone := lit "555";
     address := lit "1 Rd"; message := lit "hi" |}.

Definition carol : FormData :=
  {| name := lit "Carol"; email := lit "c@x.com"; phone := lit "556";
     address := lit "2 Rd"; message := lit "hello" |}.

Definition dave : FormData :=
  {| name := lit "Dave"; email := lit "d@x.com"; phone := lit "557";
     address := lit "3 Rd"; message := lit "hey" |}.

(** A JSON text written with single quotes standing for the double ones. *)
Definition jtext (s : string) : jsstring :=
  (λ c, if is_char "'" c then latin1 dquote else c) <$> lit s.

Definition empty_store : Storage.t :=
  {| Storage.blocked := false; Storage.quota := 5000000; Storage.items := ∅ |}.

Definition full_store : Storage.t :=
  {| Storage.blocked := false; Storage.quota := 0; Storage.items := ∅ |}.

Definition blocked_store : Storage.t :=
  {| Storage.blocked := true; Storage.quota := 5000000; Storage.items := ∅ |}.

Definition net_down : Network := λ _, NetworkError.

Definition net_status (code : N) (text : jsstring) : Network :=
  λ _, Responds {| status := code; text := text |}.

(** A server that answers every request with [200] and an empty array. *)
Definition net_ok : Network := net_status 200 (lit "[]").

(** A server that answers [200] with an object, not an array. *)
Definition net_object : Network :=
  net_status 200 (stringify (JObj [(lit "error", JStr (lit "no such user"))])).

(** A proxy that answers [200] with its own HTML page. *)
Definition net_html : Network := net_status 200 (lit "<!DOCTYPE html>").

Definition basic_session (l : list json) : Basic.AppState :=
  {| Basic.loggedIn := true; Basic.loginError := []; Basic.submissions := JArr l;
     Basic.currentPage := FormTab; Basic.username := alice |}.

Definition styled_session (l : list json) : Styled.AppState :=
  {| Styled.loggedIn := true; Styled.loginError := []; Styled.submissions := JArr l;
     Styled.username := alice |}.

Definition local_start (st : Storage.t) : Local.World :=
  {| Local.state := Local.initial; Local.localStorage := st |}.

(** Alice logs in on a fresh browser and submits Bob's record. *)
Definition after_first_submit : Local.World :=
  Local.handleFormSubmit Local.browser bob
    (Local.handleLogin Local.browser alice secret (local_start empty_store)).

End Scenario.

(** ** The components of [part_001]: what they hand to React *)

Global Instance page_eq_dec : EqDecision page.
Proof. solve_decision. Defined.

Global Instance field_eq_dec : EqDecision field.
Proof. solve_decision. Defined.

Module View.

(** The [name] attribute of an input, and [formData[name]]. *)
Definition field_name (f : field) : jsstring :=
  match f with
  | Name => lit "name"
  | Email => lit "email"
  | Phone => lit "phone"
  | Address => lit "address"
  | Message => lit "message"
  end.

Definition field_value (d : FormData) (f : field) : jsstring :=
  match f with
  | Name => name d
  | Email => email d
  | Phone => phone d
  | Address => address d
  | Message => message d
  end.

Fixpoint own_property (k : jsstring) (ps : list (jsstring * json)) : option json :=
  match ps with
  | [] => None
  | kv :: r => if bool_decide (kv.1 = k) then Some kv.2 else own_property k r
  end.

(** [s.name], ..., [s.message] for an element [s] of the list: [None] is
    [undefined]. Reading a property of [null] throws; no prototype of a
    parsed value has a property of one of the five names. *)
Definition read_field (s : json) (f : field) : completion (option json) :=
  match s with
  | JNull => Throw TypeError
  | JObj ps => Return (own_property (field_name f) ps)
  | _ => Return None
  end.

(** One [<tr>] of [SubmissionsTable]: [i + 1] and the five cells. *)
Record Row := {
  number : nat;
  cell_name : option json;
  cell_email : option json;
  cell_phone : option json;
  cell_address : option json;
  cell_message : option json
}.

Definition row (i : nat) (s : json) : completion Row :=
  n ← read_field s Name;
  e ← read_field s Email;
  p ← read_field s Phone;
  a ← read_field s Address;
  m ← read_field s Message;
  Return {| number := i + 1; cell_name := n; cell_email := e; cell_phone := p;
            cell_address := a; cell_message := m |}.

(** [submissions.map((s, i) => ...)], from index [i] on. *)
Fixpoint rows_from (i : nat) (submissions : list json) : completion (list Row) :=
  match submissions with
  | [] => Return []
  | s :: rest => r ← row i s; rs ← rows_from (S i) rest; Return (r :: rs)
  end.

Inductive table := NoSubmissionsYet | Rows (rows : list Row).

Definition rows_of (t : table) : list Row :=
  match t with NoSubmissionsYet => [] | Rows rows => rows end.

(** The row of a form record: its five strings. *)
Definition record_row (n : nat) (d : FormData) : Row :=
  {| number := n; cell_name := Some (JStr (name d));
     cell_email := Some (JStr (email d)); cell_phone := Some (JStr (phone d));
     cell_address := Some (JStr (address d));
     cell_message := Some (JStr (message d)) |}.

Definition SubmissionsTable (submissions : list json) : completion table :=
  if bool_decide (length submissions = 0%nat) then Return NoSubmissionsYet
  else rows ← rows_from 0 submissions; Return (Rows rows).

Definition LiveFormDataTable (formData : FormData) : list jsstring :=
  [name formData; email formData; phone formData; address formData;
   message formData].

(** [FormPage]: the controlled inputs, the live table, and the submitted
    data with its count when there is any. *)
Record FormPage_view := {
  inputs : FormData;
  live : list jsstring;
  submitted : option (nat * table)
}.

Definition FormPage (submissions : list json) (formData : FormData)
  : completion FormPage_view :=
  sub ← (if bool_decide (0 < length submissions)%nat
         then t ← SubmissionsTable submissions; Return (Some (length submissions, t))
         else Return None);
  Return {| inputs := formData; live := LiveFormDataTable formData; submitted := sub |}.

Definition ViewSubmissions (submissions : list json) : completion (nat * table) :=
  t ← SubmissionsTable submissions; Return (length submissions, t).

(** [LoginPage]: the error paragraph is there when [error] is not empty. *)
Record LoginPage_view := {
  shown_error : option jsstring;
  username_input : jsstring;
  password_input : jsstring
}.

Definition LoginPage (error username password : jsstring) : LoginPage_view :=
  {| shown_error := if falsy error then None else Some error;
     username_input := username; password_input := password |}.

Inductive main_body :=
  | FormBody (v : FormPage_view)
  | ListBody (count : nat) (t : table).

(** What [App] returns: the login page, or the two navigation buttons (which
    one is bold), the count on the second, and the page chosen. *)
Inductive app_view :=
  | LoginScreen (v : LoginPage_view)
  | MainScreen (form_bold view_bold : bool) (count : nat) (body : main_body).

End View.

(** ** The page of [part_001] as a machine: component state and events *)

Module LocalUI.
Import Local View.

(** The local state of the component that is mounted below [App]:
    [LoginPage] holds the two fields, [FormPage] holds [formData],
    [ViewSubmissions] holds nothing. *)
Inductive component :=
  | AtLogin (username password : jsstring)
  | AtForm (formData : FormData)
  | AtList.

Record UI := { world : World; screen : component }.

(** The component [App] mounts for [w]: the one already there keeps its
    state, another one starts from its initial state. *)
Definition mounted (w : World) (old : component) : component :=
  if negb (loggedIn (state w)) then
    match old with AtLogin _ _ => old | _ => AtLogin [] [] end
  else
    match currentPage (state w) with
    | FormTab => match old with AtForm _ => old | _ => AtForm empty_form end
    | ViewTab => AtList
    end.

Definition start (st : Storage.t) : UI :=
  {| world := {| state := initial; localStorage := st |}; screen := AtLogin [] [] |}.

(** What the user does, each a handler that fires. *)
Inductive event :=
  | TypeUsername (value : jsstring)
  | TypePassword (value : jsstring)
  | LoginSubmit
  | Change (target : field) (value : jsstring)
  | FormSubmit
  | NavTo (p : page)
  | LogoutClick.

Definition after (w : World) (old : component) : UI :=
  {| world := w; screen := mounted w old |}.

(** An event whose element is not on the screen cannot fire. [LoginPage]'s
    [handleSubmit] calls [onLogin(username, password)]; [FormPage]'s calls
    [onSubmit(formData)] and then empties the form. *)
Definition step (env : Platform) (ui : UI) (e : event) : UI :=
  match screen ui, e with
  | AtLogin _ p, TypeUsername v => {| world := world ui; screen := AtLogin v p |}
  | AtLogin u _, TypePassword v => {| world := world ui; screen := AtLogin u v |}
  | AtLogin u p, LoginSubmit => after (handleLogin env u p (world ui)) (screen ui)
  | AtForm d, Change f v =>
      {| world := world ui; screen := AtForm (handleChange d f v) |}
  | AtForm d, FormSubmit =>
      after (handleFormSubmit env d (world ui)) (AtForm empty_form)
  | (AtForm _ | AtList), NavTo p => after (setCurrentPage p (world ui)) (screen ui)
  | (AtForm _ | AtList), LogoutClick => after (handleLogout (world ui)) (screen ui)
  | _, _ => ui
  end.

Definition run (env : Platform) (events : list event) (ui : UI) : UI :=
  fold_left (step env) events ui.

(** What [App] returns for the page as it stands. *)
Definition render (ui : UI) : completion app_view :=
  let s := state (world ui) in
  if negb (loggedIn s) then
    Return (LoginScreen
      match screen ui with
      | AtLogin u p => LoginPage (loginError s) u p
      | _ => LoginPage (loginError s) [] []
      end)
  else
    body ← match currentPage s with
           | FormTab =>
               v ← FormPage (submissions s)
                      match screen ui with AtForm d => d | _ => empty_form end;
               Return (FormBody v)
           | ViewTab =>
               ct ← ViewSubmissions (submissions s);
               Return (ListBody ct.1 ct.2)
           end;
    Return (MainScreen (bool_decide (currentPage s = FormTab))
              (bool_decide (currentPage s = ViewTab))
              (length (submissions s)) body).

(** What holds of the page between two events: the component on the screen
    is the one [App] chooses, an anonymous page holds no list, no credentials
    and is on the form tab, an authenticated one shows no login error and
    holds both credentials. *)
Definition settled (ui : UI) : Prop :=
  let s := state (world ui) in
  match screen ui with
  | AtLogin _ _ =>
      loggedIn s = false ∧ submissions s = []
      ∧ auth s = {| username := []; password := [] |} ∧ currentPage s = FormTab
  | AtForm _ =>
      loggedIn s = true ∧ currentPage s = FormTab ∧ loginError s = []
      ∧ username (auth s) ≠ [] ∧ password (auth s) ≠ []
  | AtList =>
      loggedIn s = true ∧ currentPage s = ViewTab ∧ loginError s = []
      ∧ username (auth s) ≠ [] ∧ password (auth s) ≠ []
  end.

(** The record built from what was typed, field by field. *)
Definition typed_record (edits : list (field * jsstring)) (d : FormData) : FormData :=
  fold_left (λ d e, handleChange d e.1 e.2) edits d.

(** The last value typed into a field, the empty string when none was. *)
Fixpoint last_typed (f : field) (edits : list (field * jsstring)) (dflt : jsstring)
  : jsstring :=
  match edits with
  | [] => dflt
  | e :: rest =>
      last_typed f rest (if bool_decide (e.1 = f) then e.2 else dflt)
  end.

End LocalUI.

(** ** The remote builds as machines: one handler call after the other *)

(** A handler call; the controls [App] renders decide which can happen:
    login while anonymous, the others while authenticated, a submit while
    the form is shown. *)
Inductive action :=
  | DoLogin (user password : jsstring)
  | DoLogout
  | DoSubmit (formData : FormData)
  | DoNav (p : page).

Definition basic_step (s : Basic.AppState) (call : Network * action)
  : Basic.AppState :=
  match call.2 with
  | DoLogin u p =>
      if Basic.loggedIn s then s
      else state (dispatch call.1 s (Basic.handleLogin u p)).2
  | DoLogout =>
      if Basic.loggedIn s then state (dispatch call.1 s Basic.handleLogout).2 else s
  | DoSubmit d =>
      if Basic.loggedIn s && bool_decide (Basic.currentPage s = FormTab)
      then state (dispatch call.1 s (Basic.handleFormSubmit d)).2
      else s
  | DoNav p =>
      if Basic.loggedIn s
      then state (dispatch call.1 s (λ _, Basic.setCurrentPage p)).2
      else s
  end.

Definition basic_run (calls : list (Network * action)) (s : Basic.AppState)
  : Basic.AppState :=
  fold_left basic_step calls s.

(** In [part_000] the tabs keep their own state: a navigation sets nothing
    in [App]. *)
Definition styled_step (s : Styled.AppState) (call : Network * action)
  : Styled.AppState :=
  match call.2 with
  | DoLogin u p =>
      if Styled.loggedIn s then s
      else state (dispatch call.1 s (Styled.handleLogin u p)).2
  | DoLogout =>
      if Styled.loggedIn s then state (dispatch call.1 s Styled.handleLogout).2 else s
  | DoSubmit d =>
      if Styled.loggedIn s
      then state (dispatch call.1 s (Styled.handleFormSubmit d)).2
      else s
  | DoNav _ => s
  end.

Definition styled_run (calls : list (Network * action)) (s : Styled.AppState)
  : Styled.AppState :=
  fold_left styled_step calls s.

(** What holds of [App] of a remote build between two events, each handler
    having settled before the next event fires: an authenticated page has a
    username and shows no login error, an anonymous one holds no list. *)
Definition styled_settled (s : Styled.AppState) : Prop :=
  if Styled.loggedIn s
  then Styled.username s ≠ [] ∧ Styled.loginError s = []
  else Styled.submissions s = JArr [] ∧ Styled.username s = [].

Definition basic_settled (s : Basic.AppState) : Prop :=
  if Basic.loggedIn s
  then Basic.username s ≠ [] ∧ Basic.loginError s = []
  else Basic.submissions s = JArr [] ∧ Basic.currentPage s = FormTab.

(** ** [DarkModeToggle] of [part_000] *)

Module Theme.

(** The part of the page the toggle touches: the classes of the root
    element, the storage, and what [matchMedia] answers for
    [(prefers-color-scheme: dark)]. *)
Record Page := {
  classList : gset jsstring;
  localStorage : Storage.t;
  prefers_dark : bool
}.

(** An effect on the page; what was done before a throw stays done. *)
Definition D (A : Type) : Type := Page → completion A * Page.

Global Instance D_ret : MRet D := λ A a pg, (Return a, pg).
Global Instance D_bind : MBind D :=
  λ A B f m pg,
    match m pg with
    | (Return a, pg') => f a pg'
    | (Throw e, pg') => (Throw e, pg')
    end.

Definition dark_class : jsstring := lit "dark".
Definition theme_key : jsstring := lit "theme".

Definition classList_contains (c : jsstring) : D bool :=
  λ pg, (Return (bool_decide (c ∈ classList pg)), pg).

Definition classList_add (c : jsstring) : D unit :=
  λ pg, (Return (),
         {| classList := {[c]} ∪ classList pg; localStorage := localStorage pg;
            prefers_dark := prefers_dark pg |}).

Definition classList_remove (c : jsstring) : D unit :=
  λ pg, (Return (),
         {| classList := classList pg ∖ {[c]}; localStorage := localStorage pg;
            prefers_dark := prefers_dark pg |}).

Definition setItem (key value : jsstring) : D unit :=
  λ pg,
    match Storage.setItem (localStorage pg) key value with
    | Return st =>
        (Return (),
         {| classList := classList pg; localStorage := st;
            prefers_dark := prefers_dark pg |})
    | Throw e => (Throw e, pg)
    end.

Definition getItem (key : jsstring) : D (option jsstring) :=
  λ pg, (Storage.getItem (localStorage pg) key, pg).

Definition matchMedia_dark : D bool := λ pg, (Return (prefers_dark pg), pg).

Definition theme_of (dark : bool) : jsstring :=
  if dark then lit "dark" else lit "light".

(** The effect that depends on [dark]. *)
Definition sync_effect (dark : bool) : D unit :=
  if dark then classList_add dark_class;; setItem theme_key (lit "dark")
  else classList_remove dark_class;; setItem theme_key (lit "light").

(** The effect that runs once; it answers whether it called [setDark(true)]. *)
Definition restore_effect : D bool :=
  saved ← getItem theme_key;
  if bool_decide (saved = Some (lit "dark")) then mret true
  else if (match saved with None => true | Some text => falsy text end)
  then matchMedia_dark
  else mret false.

(** Mounting: the initial state is read off the class, the two effects run in
    the order they are declared, and a [setDark(true)] that changes the state
    renders again and runs the first effect once more. The result is the
    state [dark] the component settles in. *)
Definition mount : D bool :=
  dark ← classList_contains dark_class;
  sync_effect dark;;
  set ← restore_effect;
  if set && negb dark then sync_effect true;; mret true else mret dark.

(** A click: [setDark(!dark)], then the first effect. *)
Definition toggle (dark : bool) : D bool :=
  sync_effect (negb dark);; mret (negb dark).

Fixpoint toggles (n : nat) (dark : bool) : D bool :=
  match n with
  | O => mret dark
  | S n => d ← toggle dark; toggles n d
  end.

(** A visit: the toggle mounts, then is clicked [n] times. *)
Definition visit (n : nat) : D bool := dark ← mount; toggles n dark.

End Theme.

(** ** More concrete inputs *)

Module Sample.
Import Scenario.

Definition alice_key : jsstring := lit "submissions:YWxpY2UAc2VjcmV0".

(** A session of alice in the local build, the list holding [S]. *)
Definition local_session (S : list FormData) (st : Storage.t) : Local.World :=
  {| Local.state :=
       {| Local.loggedIn := true; Local.loginError := [];
          Local.submissions := obj <$> S; Local.currentPage := FormTab;
          Local.auth := {| Local.username := alice; Local.password := secret |} |};
     Local.localStorage := st |}.

(** A store that holds one record of alice and has room for nothing more. *)
Definition tight_store : Storage.t :=
  {| Storage.blocked := false; Storage.quota := 120;
     Storage.items := {[ alice_key := stringify (JArr [obj bob]) ]} |}.

(** A store in which the value of alice is an array holding [null]. *)
Definition null_store : Storage.t :=
  {| Storage.blocked := false; Storage.quota := 5000000;
     Storage.items := {[ alice_key := lit "[null]" ]} |}.

Definition light_page : Theme.Page :=
  {| Theme.classList := {[ lit "app" ]};
     Theme.localStorage :=
       {| Storage.blocked := false; Storage.quota := 5000000;
          Storage.items := {[ Theme.theme_key := lit "dark" ]} |};
     Theme.prefers_dark := true |}.

Definition blocked_page : Theme.Page :=
  {| Theme.classList := ∅; Theme.localStorage := blocked_store;
     Theme.prefers_dark := false |}.

End Sample.

(** * Facts *)

(** ** The platform functions on known inputs *)

Section Platform_examples.
Import Scenario.

Example btoa_alice_secret :
  Base64.btoa (alice ++ NUL :: secret) = Return (lit "YWxpY2UAc2VjcmV0").
Proof. vm_compute. reflexivity. Qed.

Example btoa_padding :
  Base64.btoa (lit "a") = Return (lit "YQ==")
  ∧ Base64.btoa (lit "ab") = Return (lit "YWI=")
  ∧ Base64.btoa (lit "abc") = Return (lit "YWJj").
Proof. repeat split; vm_compute; reflexivity. Qed.

Example btoa_omega : Base64.btoa omega = Throw InvalidCharacterError.
Proof. reflexivity. Qed.

(** A space, an ampersand, the omega (two octets in UTF-8), and the pair of
    surrogates of U+1F600 (four octets). *)
Example encodeURIComponent_escapes :
  URI.encodeURIComponent
    (lit "a b&" ++ omega ++ [Char16 "216" "061"; Char16 "222" "000"])
  = Return (lit "a%20b%26%CE%A9%F0%9F%98%80").
Proof. vm_compute. reflexivity. Qed.

Example encodeURIComponent_lone_surrogate :
  URI.encodeURIComponent [Char16 "216" "061"] = Throw URIError.
Proof. reflexivity. Qed.

Example stringify_bob :
  stringify (JArr [obj bob])
  = jtext "[{'name':'Bob','email':'b@x.com','phone':'555','address':'1 Rd','message':'hi'}]".
Proof. vm_compute. reflexivity. Qed.

(** A quote, a backslash, a line feed and a lone surrogate are escaped. *)
Example stringify_escapes :
  stringify (JStr (jtext "\'" ++ [latin1 "010"; Char16 "216" "061"]))
  = jtext "'\\\'\n\ud83d'".
Proof. vm_compute. reflexivity. Qed.

Example parse_nested :
  JSON.parse (jtext " [1, {'a': [true, null, -2.5e3]}, 'x\u0041'] ")
  = Return (JArr [JNum (lit "1");
                  JObj [(lit "a", JArr [JBool true; JNull; JNum (lit "-2.5e3")])];
                  JStr (lit "xA")]).
Proof. vm_compute. reflexivity. Qed.

(** A repeated key keeps its first place and its last value; array indices
    come first, in ascending order. *)
Example parse_property_order :
  JSON.parse (jtext "{'b':1,'10':2,'b':3,'9':4}")
  = Return (JObj [(lit "9", JNum (lit "4")); (lit "10", JNum (lit "2"));
                  (lit "b", JNum (lit "3"))]).
Proof. vm_compute. reflexivity. Qed.

Example parse_rejects :
  Forall (λ t, JSON.parse (jtext t) = Throw SyntaxError)
    ["[1,]"; "[1 2]"; "{'a'}"; "{a:1}"; "tru"; "01"; "1."; ".5"; "+1"; "'abc";
     "[1] x"; "<!DOCTYPE html>"]%string.
Proof. repeat constructor. Qed.

End Platform_examples.

(** ** Base64 is injective *)

Section Base64_facts.
Import Base64.

Lemma sextet_inj b5 b4 b3 b2 b1 b0 c5 c4 c3 c2 c1 c0 :
  sextet b5 b4 b3 b2 b1 b0 = sextet c5 c4 c3 c2 c1 c0 →
  b5 = c5 ∧ b4 = c4 ∧ b3 = c3 ∧ b2 = c2 ∧ b1 = c1 ∧ b0 = c0.
Proof.
  destruct b5, b4, b3, b2, b1, b0, c5, c4, c3, c2, c1, c0;
    vm_compute; intros H; first [discriminate H | done].
Qed.

Lemma sextet_not_pad b5 b4 b3 b2 b1 b0 : sextet b5 b4 b3 b2 b1 b0 ≠ pad.
Proof. destruct b5, b4, b3, b2, b1, b0; vm_compute; discriminate. Qed.

Lemma by_triples {A} (P : list A → Prop) :
  P [] → (∀ a, P [a]) → (∀ a b, P [a; b]) →
  (∀ a b c r, P r → P (a :: b :: c :: r)) →
  ∀ l, P l.
Proof.
  intros H0 H1 H2 H3.
  assert (∀ l, P l ∧ (∀ a, P (a :: l)) ∧ (∀ a b, P (a :: b :: l))) as H.
  { induction l as [|x l (IH0 & IH1 & IH2)]; [by auto|].
    split; [apply IH1|]. split; [intros; apply IH2|].
    intros; by apply H3. }
  intros l. apply H.
Qed.

Ltac sextets :=
  repeat match goal with
    | H : sextet _ _ _ _ _ _ = pad |- _ => by destruct (sextet_not_pad _ _ _ _ _ _ H)
    | H : pad = sextet _ _ _ _ _ _ |- _ =>
        symmetry in H; by destruct (sextet_not_pad _ _ _ _ _ _ H)
    | H : sextet _ _ _ _ _ _ = sextet _ _ _ _ _ _ |- _ =>
        apply sextet_inj in H; destruct H as (? & ? & ? & ? & ? & ?)
    end.

Lemma encode_inj l1 l2 : encode l1 = encode l2 → l1 = l2.
Proof.
  revert l2. induction l1 as [|a|a b|a b c r IH] using by_triples; intros l2.
  - destruct l2 as [|[] [|[] [|[] ?]]]; cbn; by intros [=].
  - destruct a; destruct l2 as [|[] [|[] [|[] ?]]]; cbn [encode];
      intros [=]; sextets; by subst.
  - destruct a, b; destruct l2 as [|[] [|[] [|[] ?]]]; cbn [encode];
      intros [=]; sextets; by subst.
  - destruct a, b, c; destruct l2 as [|[] [|[] [|[] r2]]]; cbn [encode];
      intros [=]; sextets; subst.
    f_equal. f_equal. f_equal. by apply IH.
Qed.

Lemma octets_inj s1 s2 bs :
  octets s1 = Return bs → octets s2 = Return bs → s1 = s2.
Proof.
  revert s2 bs. induction s1 as [|[h l] s1 IH]; intros [|[h2 l2] s2] bs; cbn.
  - done.
  - case_bool_decide; [|done]. destruct (octets s2); cbn; [|done]. by intros [= <-].
  - case_bool_decide; [|done]. destruct (octets s1); cbn; [|done]. by intros [= <-].
  - repeat case_bool_decide; try done.
    destruct (octets s1) as [b1|] eqn:E1; cbn; [|done].
    destruct (octets s2) as [b2|] eqn:E2; cbn; [|done].
    intros [= <-] [= -> ->]. subst. f_equal. by eapply IH.
Qed.

#[local] Instance latin1_inj : Inj (=) (=) latin1.
Proof. by intros a b [=]. Qed.

Lemma btoa_inj s1 s2 e : btoa s1 = Return e → btoa s2 = Return e → s1 = s2.
Proof.
  unfold btoa. destruct (octets s1) as [b1|] eqn:E1; cbn; [|done].
  destruct (octets s2) as [b2|] eqn:E2; cbn; [|done].
  intros [= <-] [= H].
  apply (inj (fmap latin1)) in H. apply encode_inj in H. subst.
  by eapply octets_inj.
Qed.

(** [btoa] accepts exactly the strings of the Latin-1 range. *)
Lemma btoa_returns_iff s :
  returns (btoa s) = true ↔ Forall (λ c, hi c = zero) s.
Proof.
  unfold btoa. induction s as [|c s IH]; cbn.
  - split; [constructor|done].
  - case_bool_decide as Hc.
    + destruct (octets s) as [bs|]; cbn in *.
      * split; [constructor; [done|by apply IH]|done].
      * split; [done|]. intros [_ H]%Forall_cons. by apply IH in H.
    + split; [done|]. by intros [? _]%Forall_cons.
Qed.

End Base64_facts.

(** ** [JSON.parse] reads back what [JSON.stringify] wrote *)

Section JSON_facts.

Lemma is_char_true a c : is_char a c = true → c = latin1 a.
Proof. unfold is_char. by intros ?%bool_decide_eq_true. Qed.

Lemma code_latin1 a : code (latin1 a) < 256.
Proof. unfold code; cbn. apply N_ascii_bounded. Qed.

Lemma is_char_above a c : 256 ≤ code c → is_char a c = false.
Proof.
  intros Hc. destruct (is_char a c) eqn:E; [|done].
  apply is_char_true in E. subst. pose proof (code_latin1 a). lia.
Qed.

Lemma unhex2_hex2 a :
  unhex2 (latin1 (nth (N.to_nat (N_of_ascii a / 16)) hex_digits "0"%char))
         (latin1 (nth (N.to_nat (N_of_ascii a mod 16)) hex_digits "0"%char)) = Some a.
Proof. destruct a as [[] [] [] [] [] [] [] []]; vm_compute; reflexivity. Qed.

Lemma parse_chars_u h1 h2 h3 h4 r :
  parse_chars (latin1 backslash :: latin1 "u" :: h1 :: h2 :: h3 :: h4 :: r) =
  match unhex2 h1 h2, unhex2 h3 h4 with
  | Some a, Some b => push (Char16 a b) (parse_chars r)
  | _, _ => None
  end.
Proof. reflexivity. Qed.

Lemma parse_chars_uescape c rest :
  parse_chars (uescape c ++ rest) = push c (parse_chars rest).
Proof.
  destruct c as [h l]. cbv [uescape hex2 app hi lo].
  by rewrite parse_chars_u, !unhex2_hex2.
Qed.

Lemma parse_chars_plain c rest :
  is_char dquote c = false → is_char backslash c = false → is_control c = false →
  parse_chars (c :: rest) = push c (parse_chars rest).
Proof. intros H1 H2 H3. cbn [parse_chars]. by rewrite H1, H2, H3. Qed.

Lemma short_escape_parse c e rest :
  short_escape c = Some e →
  parse_chars (latin1 backslash :: latin1 e :: rest) = push c (parse_chars rest).
Proof.
  unfold short_escape.
  repeat match goal with
    | |- (if is_char ?a c then _ else _) = _ → _ =>
        let E := fresh in
        destruct (is_char a c) eqn:E;
          [apply is_char_true in E; intros [= <-]; subst c; reflexivity|]
    end.
  done.
Qed.

Lemma short_escape_none c :
  short_escape c = None → is_char dquote c = false ∧ is_char backslash c = false.
Proof.
  unfold short_escape. repeat (destruct (is_char _ c); [done|]). done.
Qed.

Lemma parse_chars_escape_unit c rest :
  parse_chars (escape_unit c ++ rest) = push c (parse_chars rest).
Proof.
  unfold escape_unit. destruct (short_escape c) as [e|] eqn:E.
  - by apply short_escape_parse.
  - destruct (is_control c) eqn:Hc; [apply parse_chars_uescape|].
    apply short_escape_none in E as [? ?]. by apply parse_chars_plain.
Qed.

Lemma surrogate_plain c :
  is_high_surrogate c || is_low_surrogate c = true →
  is_char dquote c = false ∧ is_char backslash c = false ∧ is_control c = false.
Proof.
  unfold is_high_surrogate, is_low_surrogate, is_control. intros H.
  assert (256 ≤ code c).
  { apply orb_true_iff in H as [H|H]; apply andb_true_iff in H as [H _];
      apply N.leb_le in H; lia. }
  rewrite !is_char_above by done. repeat split. apply N.ltb_ge. lia.
Qed.

Lemma parse_chars_quote_chars s rest :
  parse_chars (quote_chars s ++ latin1 dquote :: rest) = Some (s, rest).
Proof.
  enough (parse_chars (quote_chars s ++ latin1 dquote :: rest) = Some (s, rest)
          ∧ ∀ c, parse_chars (quote_chars (c :: s) ++ latin1 dquote :: rest)
                 = Some (c :: s, rest)) as [H _] by done.
  induction s as [|d s [IH0 IH1]].
  - split; [done|]. intros c. cbn [quote_chars].
    destruct (is_high_surrogate c); [|destruct (is_low_surrogate c)];
      rewrite ?app_nil_r, <- ?app_assoc;
      by rewrite ?parse_chars_uescape, ?parse_chars_escape_unit.
  - split; [apply IH1|]. intros c.
    change (quote_chars (c :: d :: s)) with
      (if is_high_surrogate c then
         if is_low_surrogate d then c :: d :: quote_chars s
         else uescape c ++ quote_chars (d :: s)
       else if is_low_surrogate c then uescape c ++ quote_chars (d :: s)
       else escape_unit c ++ quote_chars (d :: s)).
    destruct (is_high_surrogate c) eqn:Hc; [destruct (is_low_surrogate d) eqn:Hd|].
    + destruct (surrogate_plain c) as (? & ? & ?); [by rewrite Hc|].
      destruct (surrogate_plain d) as (? & ? & ?); [by rewrite Hd, orb_true_r|].
      cbn [app]. rewrite !parse_chars_plain by done. by rewrite IH0.
    + rewrite <- app_assoc, parse_chars_uescape. by rewrite (IH1 d).
    + destruct (is_low_surrogate c);
        rewrite <- app_assoc, ?parse_chars_uescape, ?parse_chars_escape_unit;
        by rewrite (IH1 d).
Qed.

(** The recursive descent, one step at a time. *)

Lemma parse_value_dquote f t :
  parse_value (S f) (latin1 dquote :: t) = '(str, r) ← parse_chars t; Some (JStr str, r).
Proof. reflexivity. Qed.

Lemma parse_value_object f t :
  parse_value (S f) (latin1 "{" :: latin1 dquote :: t) =
  '(ps, r) ← parse_members f [] (latin1 dquote :: t); Some (JObj ps, r).
Proof. reflexivity. Qed.

Lemma parse_value_array f t :
  parse_value (S f) (latin1 "[" :: latin1 "{" :: t) =
  '(vs, r) ← parse_elements f (latin1 "{" :: t); Some (JArr vs, r).
Proof. reflexivity. Qed.

Lemma parse_elements_step f s :
  parse_elements (S f) s =
  '(v, r) ← parse_value f s;
  match skip_ws r with
  | [] => None
  | c :: r' =>
      if is_char "," c then '(vs, r'') ← parse_elements f r'; Some (v :: vs, r'')
      else if is_char "]" c then Some ([v], r')
      else None
  end.
Proof. reflexivity. Qed.

Lemma parse_members_step f acc t :
  parse_members (S f) acc (latin1 dquote :: t) =
  '(k, r1) ← parse_chars t;
  match skip_ws r1 with
  | [] => None
  | c1 :: r2 =>
      if is_char ":" c1 then
        '(v, r3) ← parse_value f r2;
        match skip_ws r3 with
        | [] => None
        | c3 :: r4 =>
            if is_char "," c3 then parse_members f (define_prop k v acc) r4
            else if is_char "}" c3 then Some (define_prop k v acc, r4)
            else None
        end
      else None
  end.
Proof. reflexivity. Qed.

(** *** The fuel of [JSON.parse] is never exhausted *)

Local Open Scope nat_scope.

Lemma skip_ws_length s : length (skip_ws s) ≤ length s.
Proof. induction s as [|c s IH]; cbn; [done|]. destruct (is_ws c); cbn; lia. Qed.

Lemma push_Some c p str r :
  push c p = Some (str, r) → ∃ str', p = Some (str', r).
Proof. destruct p as [[]|]; cbn; [|done]. intros [= <- <-]. eauto. Qed.

Lemma parse_chars_length s str r :
  parse_chars s = Some (str, r) → length r < length s.
Proof.
  remember (length s) as n eqn:Hn. revert s Hn str r.
  induction (lt_wf n) as [n _ IH]. intros s -> str r.
  destruct s as [|c s]; [done|]. cbn [parse_chars length].
  destruct (is_char dquote c); [intros [= _ <-]; lia|].
  destruct (is_char backslash c).
  - destruct s as [|e s]; [done|]. destruct (is_char "u" e).
    + destruct s as [|h1 [|h2 [|h3 [|h4 s]]]]; try done.
      destruct (unhex2 h1 h2); [|done]. destruct (unhex2 h3 h4); [|done].
      intros [str' H]%push_Some.
      apply (IH (length s) ltac:(cbn; lia) s eq_refl) in H. cbn. lia.
    + destruct (unescape e); [|done].
      intros [str' H]%push_Some.
      apply (IH (length s) ltac:(cbn; lia) s eq_refl) in H. cbn. lia.
  - destruct (is_control c); [done|].
    intros [str' H]%push_Some.
    apply (IH (length s) ltac:(cbn; lia) s eq_refl) in H. lia.
Qed.

Lemma span_digits_length s : length (span_digits s).2 ≤ length s.
Proof.
  induction s as [|c s IH]; cbn; [done|].
  destruct (is_digit c); [|cbn; lia]. destruct (span_digits s); cbn in *. lia.
Qed.

Lemma some_digits_length s ds r : some_digits s = Some (ds, r) → length r ≤ length s.
Proof.
  unfold some_digits. pose proof (span_digits_length s).
  destruct (span_digits s) as [[|] ?]; [done|]. intros [= <- <-]. done.
Qed.

Lemma opt_char_length p s : length (opt_char p s).2 ≤ length s.
Proof. destruct s as [|c s]; cbn; [done|]. destruct (p c); cbn; lia. Qed.

Lemma number_int_length s n r : number_int s = Some (n, r) → length r < length s.
Proof.
  destruct s as [|c s]; cbn; [done|].
  destruct (is_char "0" c); [intros [= _ <-]; lia|].
  destruct (is_digit c); [|done].
  pose proof (span_digits_length s). destruct (span_digits s); cbn in *.
  intros [= _ <-]. lia.
Qed.

Lemma number_frac_length s n r : number_frac s = Some (n, r) → length r ≤ length s.
Proof.
  destruct s as [|c s]; cbn; [by intros [= _ <-]|].
  destruct (is_char "." c); [|by intros [= _ <-]].
  destruct (some_digits s) as [[ds r']|] eqn:E; cbn; [|done].
  apply some_digits_length in E. intros [= _ <-]. lia.
Qed.

Lemma number_exp_length s n r : number_exp s = Some (n, r) → length r ≤ length s.
Proof.
  destruct s as [|c s]; cbn; [by intros [= _ <-]|].
  destruct (_ || _); [|by intros [= _ <-]].
  pose proof (opt_char_length (λ d, is_char "+" d || is_char "-" d) s).
  destruct (opt_char _ s) as [sg r1]. cbn in *.
  destruct (some_digits r1) as [[ds r2]|] eqn:E; cbn; [|done].
  apply some_digits_length in E. intros [= _ <-]. lia.
Qed.

Lemma parse_number_length s n r : parse_number s = Some (n, r) → length r < length s.
Proof.
  unfold parse_number. pose proof (opt_char_length (is_char "-") s).
  destruct (opt_char _ s) as [sign s1]. cbn in *.
  destruct (number_int s1) as [[int s2]|] eqn:E1; cbn; [|done].
  destruct (number_frac s2) as [[frac s3]|] eqn:E2; cbn; [|done].
  destruct (number_exp s3) as [[exp s4]|] eqn:E3; cbn; [|done].
  apply number_int_length in E1. apply number_frac_length in E2.
  apply number_exp_length in E3. intros [= _ <-]. lia.
Qed.

Lemma strip_prefix_length p s r : strip_prefix p s = Some r → length r ≤ length s.
Proof.
  revert s. induction p as [|a p IH]; intros [|b s]; cbn; try done.
  - by intros [= <-].
  - by intros [= <-].
  - case_bool_decide; [|done]. intros ?%IH. lia.
Qed.

Lemma parse_atom_length s v r : parse_atom s = Some (v, r) → length r ≤ length s.
Proof.
  unfold parse_atom.
  destruct (strip_prefix (lit "null") s) eqn:E1;
    [apply strip_prefix_length in E1; by intros [= _ <-]|].
  destruct (strip_prefix (lit "true") s) eqn:E2;
    [apply strip_prefix_length in E2; by intros [= _ <-]|].
  destruct (strip_prefix (lit "false") s) eqn:E3;
    [apply strip_prefix_length in E3; by intros [= _ <-]|].
  destruct (parse_number s) as [[n r']|] eqn:E; cbn; [|done].
  apply parse_number_length in E. intros [= _ <-]. lia.
Qed.

Lemma parse_value_step f s :
  parse_value (S f) s =
  match skip_ws s with
  | [] => None
  | c :: r =>
      if is_char dquote c then '(str, r') ← parse_chars r; Some (JStr str, r')
      else if is_char "[" c then
        match skip_ws r with
        | [] => None
        | c' :: r' =>
            if is_char "]" c' then Some (JArr [], r')
            else '(vs, r'') ← parse_elements f r; Some (JArr vs, r'')
        end
      else if is_char "{" c then
        match skip_ws r with
        | [] => None
        | c' :: r' =>
            if is_char "}" c' then Some (JObj [], r')
            else '(ps, r'') ← parse_members f [] r; Some (JObj ps, r'')
        end
      else parse_atom (c :: r)
  end.
Proof. reflexivity. Qed.

Lemma parse_members_unfold f acc s :
  parse_members (S f) acc s =
  match skip_ws s with
  | [] => None
  | c :: r =>
      if is_char dquote c then
        '(k, r1) ← parse_chars r;
        match skip_ws r1 with
        | [] => None
        | c1 :: r2 =>
            if is_char ":" c1 then
              '(v, r3) ← parse_value f r2;
              match skip_ws r3 with
              | [] => None
              | c3 :: r4 =>
                  if is_char "," c3 then parse_members f (define_prop k v acc) r4
                  else if is_char "}" c3 then Some (define_prop k v acc, r4)
                  else None
              end
            else None
        end
      else None
  end.
Proof. reflexivity. Qed.

(** What a parser leaves is no longer than what it was given. *)
Lemma parse_remainder f :
  (∀ s v r, parse_value f s = Some (v, r) → length r ≤ length s)
  ∧ (∀ s vs r, parse_elements f s = Some (vs, r) → length r ≤ length s)
  ∧ (∀ acc s ps r, parse_members f acc s = Some (ps, r) → length r ≤ length s).
Proof.
  induction f as [|f (IHv & IHe & IHm)]; [done|]. split; [|split].
  - intros s v r. rewrite parse_value_step.
    pose proof (skip_ws_length s). destruct (skip_ws s) as [|c t]; [done|].
    cbn [length] in *.
    destruct (is_char dquote c).
    { destruct (parse_chars t) as [[str r']|] eqn:E; cbn; [|done].
      apply parse_chars_length in E. intros [= _ <-]. lia. }
    destruct (is_char "[" c).
    { pose proof (skip_ws_length t). destruct (skip_ws t) as [|c' t']; [done|].
      cbn [length] in *.
      destruct (is_char "]" c'); [intros [= _ <-]; lia|].
      destruct (parse_elements f t) as [[vs r']|] eqn:E; cbn; [|done].
      apply IHe in E. intros [= _ <-]. lia. }
    destruct (is_char "{" c).
    { pose proof (skip_ws_length t). destruct (skip_ws t) as [|c' t']; [done|].
      cbn [length] in *.
      destruct (is_char "}" c'); [intros [= _ <-]; lia|].
      destruct (parse_members f [] t) as [[ps r']|] eqn:E; cbn; [|done].
      apply IHm in E. intros [= _ <-]. lia. }
    intros ?%parse_atom_length. cbn [length] in *. lia.
  - intros s vs r. rewrite parse_elements_step.
    destruct (parse_value f s) as [[v t]|] eqn:E; cbn; [|done]. apply IHv in E.
    pose proof (skip_ws_length t). destruct (skip_ws t) as [|c t']; [done|].
    cbn [length] in *.
    destruct (is_char "," c).
    { destruct (parse_elements f t') as [[vs' r']|] eqn:E'; cbn; [|done].
      apply IHe in E'. intros [= _ <-]. lia. }
    destruct (is_char "]" c); [|done]. intros [= _ <-]. lia.
  - intros acc s ps r. rewrite parse_members_unfold.
    pose proof (skip_ws_length s). destruct (skip_ws s) as [|c t]; [done|].
    cbn [length] in *.
    destruct (is_char dquote c); [|done].
    destruct (parse_chars t) as [[k r1]|] eqn:E; cbn; [|done].
    apply parse_chars_length in E.
    pose proof (skip_ws_length r1). destruct (skip_ws r1) as [|c1 r2]; [done|].
    cbn [length] in *.
    destruct (is_char ":" c1); [|done].
    destruct (parse_value f r2) as [[v r3]|] eqn:E'; cbn; [|done]. apply IHv in E'.
    pose proof (skip_ws_length r3). destruct (skip_ws r3) as [|c3 r4]; [done|].
    cbn [length] in *.
    destruct (is_char "," c3); [intros ?%IHm; lia|].
    destruct (is_char "}" c3); [|done]. intros [= _ <-]. lia.
Qed.

(** Beyond twice the length of the text, more fuel changes nothing. *)
Lemma parse_fuel_step f :
  (∀ s, 2 * length s + 1 ≤ f → parse_value (S f) s = parse_value f s)
  ∧ (∀ s, 2 * length s + 2 ≤ f → parse_elements (S f) s = parse_elements f s)
  ∧ (∀ acc s, 2 * length s + 2 ≤ f →
       parse_members (S f) acc s = parse_members f acc s).
Proof.
  induction f as [|f (IHv & IHe & IHm)]; [split; [|split]; intros; lia|].
  split; [|split].
  - intros s Hs. rewrite (parse_value_step (S f)), (parse_value_step f).
    pose proof (skip_ws_length s). destruct (skip_ws s) as [|c t]; [done|].
    cbn [length] in *.
    destruct (is_char dquote c); [done|].
    destruct (is_char "[" c).
    { pose proof (skip_ws_length t). destruct (skip_ws t) as [|c' t']; [done|].
      destruct (is_char "]" c'); [done|]. rewrite IHe by lia. done. }
    destruct (is_char "{" c); [|done].
    pose proof (skip_ws_length t). destruct (skip_ws t) as [|c' t']; [done|].
    destruct (is_char "}" c'); [done|]. rewrite IHm by lia. done.
  - intros s Hs. rewrite (parse_elements_step (S f)), (parse_elements_step f).
    rewrite IHv by lia.
    destruct (parse_value f s) as [[v t]|] eqn:E; cbn [mbind option_bind]; [|done].
    apply parse_remainder in E.
    pose proof (skip_ws_length t). destruct (skip_ws t) as [|c t']; [done|].
    cbn [length] in *.
    destruct (is_char "," c); [|done]. rewrite IHe by lia. done.
  - intros acc s Hs. rewrite (parse_members_unfold (S f)), (parse_members_unfold f).
    pose proof (skip_ws_length s). destruct (skip_ws s) as [|c t]; [done|].
    cbn [length] in *.
    destruct (is_char dquote c); [|done].
    destruct (parse_chars t) as [[k r1]|] eqn:E; cbn [mbind option_bind]; [|done].
    apply parse_chars_length in E.
    pose proof (skip_ws_length r1). destruct (skip_ws r1) as [|c1 r2]; [done|].
    cbn [length] in *.
    destruct (is_char ":" c1); [|done]. rewrite IHv by lia.
    destruct (parse_value f r2) as [[v r3]|] eqn:E'; cbn [mbind option_bind]; [|done].
    apply parse_remainder in E'.
    pose proof (skip_ws_length r3). destruct (skip_ws r3) as [|c3 r4]; [done|].
    cbn [length] in *.
    destruct (is_char "," c3); [|done]. rewrite IHm by lia. done.
Qed.

(** [JSON.parse] never fails for want of fuel: any larger bound gives the
    same result. *)
Lemma parse_fuel_enough text f :
  2 * length text + 2 ≤ f → parse_value f text = parse_value (2 * length text + 2) text.
Proof.
  induction 1 as [|f Hle IH]; [done|].
  rewrite <- IH. apply parse_fuel_step. lia.
Qed.

Local Close Scope nat_scope.

(** *** Form records survive printing and parsing *)

Lemma member_shape k v rest :
  member k v ++ rest =
  latin1 dquote :: quote_chars k ++ latin1 dquote :: latin1 ":"
    :: latin1 dquote :: quote_chars v ++ latin1 dquote :: rest.
Proof.
  unfold member, quote. cbn [app]. f_equal.
  rewrite <- !app_assoc. cbn [app]. do 4 f_equal.
  by rewrite <- !app_assoc.
Qed.

Lemma parse_members_comma f acc k v rest :
  parse_members (S (S f)) acc (member k v ++ latin1 "," :: rest) =
  parse_members (S f) (define_prop k (JStr v) acc) rest.
Proof.
  rewrite member_shape, parse_members_step, parse_chars_quote_chars.
  cbn [mbind option_bind skip_ws].
  change (is_ws (latin1 ":")) with false. change (is_char ":" (latin1 ":")) with true.
  cbv iota. by rewrite parse_value_dquote, parse_chars_quote_chars.
Qed.

Lemma parse_members_brace f acc k v rest :
  parse_members (S (S f)) acc (member k v ++ latin1 "}" :: rest) =
  Some (define_prop k (JStr v) acc, rest).
Proof.
  rewrite member_shape, parse_members_step, parse_chars_quote_chars.
  cbn [mbind option_bind skip_ws].
  change (is_ws (latin1 ":")) with false. change (is_char ":" (latin1 ":")) with true.
  cbv iota. by rewrite parse_value_dquote, parse_chars_quote_chars.
Qed.

Lemma stringify_obj d rest :
  stringify (obj d) ++ rest =
  latin1 "{" :: member (lit "name") (name d) ++ latin1 ","
    :: member (lit "email") (email d) ++ latin1 ","
    :: member (lit "phone") (phone d) ++ latin1 ","
    :: member (lit "address") (address d) ++ latin1 ","
    :: member (lit "message") (message d) ++ latin1 "}" :: rest.
Proof.
  unfold obj, form_props, member.
  cbn [stringify map join_comma fst snd]. cbn [app]. f_equal.
  by repeat (rewrite <- ?app_assoc; cbn [app]; f_equal).
Qed.

Lemma parse_value_obj f d rest :
  parse_value (7 + f) (stringify (obj d) ++ rest) = Some (obj d, rest).
Proof.
  rewrite stringify_obj.
  change (member (lit "name") (name d)) with
    (latin1 dquote :: (quote_chars (lit "name") ++ [latin1 dquote])
       ++ latin1 ":" :: quote (name d)).
  cbn [app Nat.add]. rewrite parse_value_object.
  change (latin1 dquote :: ((quote_chars (lit "name") ++ [latin1 dquote])
       ++ latin1 ":" :: quote (name d)) ++ ?r) with (member (lit "name") (name d) ++ r).
  rewrite !parse_members_comma, parse_members_brace. reflexivity.
Qed.

Lemma parse_elements_records f (S : list FormData) rest :
  S ≠ [] →
  parse_elements (length S + 7 + f)
    (join_comma (stringify <$> (obj <$> S)) ++ latin1 "]" :: rest)
  = Some (obj <$> S, rest).
Proof.
  induction S as [|d S IH]; [done|]. intros _.
  destruct S as [|d' S].
  - cbn [fmap list_fmap join_comma length Nat.add].
    rewrite parse_elements_step, (parse_value_obj f). reflexivity.
  - change (join_comma (stringify <$> (obj <$> d :: d' :: S))) with
      (stringify (obj d) ++ latin1 "," :: join_comma (stringify <$> (obj <$> d' :: S))).
    rewrite <- app_assoc. cbn [app].
    change (length (d :: d' :: S) + 7 + f)%nat with
      (Datatypes.S (length (d' :: S) + 7 + f)).
    rewrite parse_elements_step.
    replace (length (d' :: S) + 7 + f)%nat with (7 + (length (d' :: S) + f))%nat at 1
      by lia.
    rewrite parse_value_obj. cbn [mbind option_bind skip_ws].
    change (is_ws (latin1 ",")) with false. change (is_char "," (latin1 ",")) with true.
    cbv iota. by rewrite IH.
Qed.

Lemma length_join_records (S : list FormData) :
  (2 * length S ≤ length (join_comma (stringify <$> (obj <$> S))))%nat.
Proof.
  induction S as [|d S IH]; [done|].
  assert (2 ≤ length (stringify (obj d)))%nat as Hd.
  { cbn [obj stringify]. cbn [length]. rewrite length_app. cbn. lia. }
  destruct S as [|d' S].
  - cbn [fmap list_fmap join_comma length] in *. lia.
  - change (join_comma (stringify <$> (obj <$> d :: d' :: S))) with
      (stringify (obj d) ++ latin1 "," :: join_comma (stringify <$> (obj <$> d' :: S))).
    rewrite length_app. cbn [length] in *. lia.
Qed.

(** An array of form records survives printing and parsing. *)
Lemma parse_stringify_records (S : list FormData) :
  JSON.parse (stringify (JArr (obj <$> S))) = Return (JArr (obj <$> S)).
Proof.
  destruct S as [|d S]; [reflexivity|].
  pose proof (length_join_records (d :: S)) as Hlen.
  unfold JSON.parse.
  change (stringify (JArr (obj <$> d :: S))) with
    (latin1 "[" :: join_comma (stringify <$> (obj <$> d :: S)) ++ [latin1 "]"]) in *.
  set (body := join_comma (stringify <$> (obj <$> d :: S))) in *.
  assert (∃ t, body = latin1 "{" :: t) as [t Ht].
  { subst body. destruct S; cbn [fmap list_fmap join_comma obj stringify]; eauto. }
  assert (∃ f, (2 * length (latin1 "[" :: body ++ [latin1 "]"]) + 2)%nat
               = Datatypes.S (length (d :: S) + 7 + f)) as [f ->].
  { exists (2 * length body - length (d :: S) - 2)%nat.
    cbn [length] in *. rewrite length_app. cbn [length] in *. lia. }
  rewrite Ht, <- app_comm_cons, parse_value_array, app_comm_cons, <- Ht.
  subst body. rewrite parse_elements_records by done. reflexivity.
Qed.

Lemma parse_empty : JSON.parse [] = Throw SyntaxError.
Proof. reflexivity. Qed.

End JSON_facts.

(** ** The local adapter *)

Section Local_adapter.
Import Local.

Lemma raw_inj u1 p1 u2 p2 :
  NUL ∉ u1 → NUL ∉ u2 →
  u1 ++ NUL :: p1 = u2 ++ NUL :: p2 → u1 = u2 ∧ p1 = p2.
Proof.
  revert u2. induction u1 as [|c u1 IH]; intros [|c2 u2] H1 H2; cbn.
  - by intros [= ->].
  - intros [= <- _]. destruct H2. left.
  - intros [= -> _]. destruct H1. left.
  - intros [= -> H].
    destruct (IH u2) as [-> ->]; [| |done|done].
    + intros ?. apply H1. by right.
    + intros ?. apply H2. by right.
Qed.

(** Where both keys exist and the usernames hold no NUL, equal keys come from
    equal credentials. *)
Lemma getSubmissionsStorageKey_inj env u1 p1 u2 p2 key :
  NUL ∉ u1 → NUL ∉ u2 →
  getSubmissionsStorageKey env u1 p1 = Return key →
  getSubmissionsStorageKey env u2 p2 = Return key →
  u1 = u2 ∧ p1 = p2.
Proof.
  intros H1 H2. unfold getSubmissionsStorageKey.
  destruct (btoa_defined env).
  - destruct (Base64.btoa (u1 ++ NUL :: p1)) as [e1|] eqn:E1; cbn; [|done].
    destruct (Base64.btoa (u2 ++ NUL :: p2)) as [e2|] eqn:E2; cbn; [|done].
    intros [= <-] [= ->].
    apply (raw_inj u1 p1 u2 p2 H1 H2). by eapply btoa_inj.
  - cbn. intros [= <-] [= H]. by apply raw_inj.
Qed.

(** A successful write stores the printed list under the key and changes
    nothing else. *)
Lemma saveSubmissions_body_returns env st u p subs st' :
  saveSubmissions_body env st u p subs = Return st' →
  ∃ key, getSubmissionsStorageKey env u p = Return key
         ∧ Storage.blocked st = false ∧ Storage.blocked st' = false
         ∧ Storage.items st' = <[key := stringify (JArr subs)]> (Storage.items st).
Proof.
  unfold saveSubmissions_body.
  destruct (getSubmissionsStorageKey env u p) as [key|]; cbn; [|done].
  unfold Storage.setItem. destruct (Storage.blocked st) eqn:Hb; [done|].
  destruct (_ <=? _); [|done]. intros [= <-]. by exists key.
Qed.

(** What the read does, case by case. *)
Lemma loadSubmissions_cases env st u p :
  loadSubmissions env st u p =
  match getSubmissionsStorageKey env u p with
  | Throw _ => []
  | Return key =>
      if Storage.blocked st then []
      else match Storage.items st !! key with
           | None => []
           | Some text =>
               match JSON.parse text with
               | Return (JArr l) => l
               | _ => []
               end
           end
  end.
Proof.
  unfold loadSubmissions, loadSubmissions_body, Storage.getItem.
  destruct (getSubmissionsStorageKey env u p) as [key|]; cbn; [|done].
  destruct (Storage.blocked st); cbn; [done|].
  destruct (Storage.items st !! key) as [text|]; [|done].
  destruct text as [|c text]; [done|].
  cbn [falsy]. by destruct (JSON.parse (c :: text)) as [[]|].
Qed.

Lemma roundtrip_of_write env st u p (S : list FormData) st' :
  saveSubmissions_body env st u p (obj <$> S) = Return st' →
  loadSubmissions env st' u p = obj <$> S.
Proof.
  intros (key & Hkey & _ & Hb & Hitems)%saveSubmissions_body_returns.
  rewrite loadSubmissions_cases, Hkey, Hb, Hitems, lookup_insert_eq.
  by rewrite parse_stringify_records.
Qed.

Lemma isolation_of_write env st u1 p1 u2 p2 subs :
  NUL ∉ u1 → NUL ∉ u2 → (u1, p1) ≠ (u2, p2) →
  loadSubmissions env (saveSubmissions env st u1 p1 subs) u2 p2
  = loadSubmissions env st u2 p2.
Proof.
  intros H1 H2 Hne. unfold saveSubmissions.
  destruct (saveSubmissions_body env st u1 p1 subs) as [st'|] eqn:E; [|done].
  cbn [try_catch].
  apply saveSubmissions_body_returns in E as (k1 & Hk1 & Hb & Hb' & Hitems).
  rewrite !loadSubmissions_cases, Hb, Hb', Hitems.
  destruct (getSubmissionsStorageKey env u2 p2) as [k2|] eqn:Hk2; [|done].
  rewrite lookup_insert_ne; [done|].
  intros ->. destruct (getSubmissionsStorageKey_inj env u1 p1 u2 p2 k2) as [-> ->]; done.
Qed.

End Local_adapter.

Section Local_claims.
Import Local Scenario.

(** C3, as amended. For every credential pair [(u, p)] and every sequence [S]
    of form records: if the write of [saveSubmissions(u, p, S)] is not
    discarded, that is, its [try] block completes without an exception, then
    [loadSubmissions(u, p)] right after it returns exactly [S]. *)
Theorem local_roundtrip_when_written env st u p (S : list FormData) :
  returns (saveSubmissions_body env st u p (obj <$> S)) = true →
  loadSubmissions env (saveSubmissions env st u p (obj <$> S)) u p = obj <$> S.
Proof.
  unfold saveSubmissions.
  destruct (saveSubmissions_body env st u p (obj <$> S)) as [st'|] eqn:E; [|done].
  intros _. cbn [try_catch]. by eapply roundtrip_of_write.
Qed.

Lemma local_roundtrip_when_written_witness :
  returns (saveSubmissions_body browser empty_store alice secret (obj <$> [bob; carol]))
  = true
  ∧ loadSubmissions browser
      (saveSubmissions browser empty_store alice secret (obj <$> [bob; carol]))
      alice secret
    = obj <$> [bob; carol].
Proof.
  split; [vm_compute; reflexivity|].
  apply local_roundtrip_when_written. vm_compute; reflexivity.
Defined.

(** C3 as stated fails: with the storage quota exhausted the write is
    dropped by the [catch] of [saveSubmissions], and the read that follows
    returns the empty list instead of the record written. *)
Lemma roundtrip_lost_when_quota_exceeded :
  saveSubmissions_body browser full_store alice secret (obj <$> [bob])
  = Throw QuotaExceededError
  ∧ loadSubmissions browser
      (saveSubmissions browser full_store alice secret (obj <$> [bob])) alice secret
    = []
  ∧ loadSubmissions browser
      (saveSubmissions browser full_store alice secret (obj <$> [bob])) alice secret
    ≠ obj <$> [bob].
Proof. repeat split; [vm_compute; reflexivity..|vm_compute; discriminate]. Qed.

(** The same loss without any storage failure: [btoa] throws on a username
    outside Latin-1, inside the [try] of both adapter functions. *)
Lemma roundtrip_lost_for_non_latin1_username :
  getSubmissionsStorageKey browser omega secret = Throw InvalidCharacterError
  ∧ saveSubmissions browser empty_store omega secret (obj <$> [bob]) = empty_store
  ∧ loadSubmissions browser
      (saveSubmissions browser empty_store omega secret (obj <$> [bob])) omega secret
    = [].
Proof. repeat split; vm_compute; reflexivity. Qed.

Lemma roundtrip_lost_when_storage_blocked :
  saveSubmissions_body browser blocked_store alice secret (obj <$> [bob])
  = Throw SecurityError
  ∧ loadSubmissions browser
      (saveSubmissions browser blocked_store alice secret (obj <$> [bob])) alice secret
    = [].
Proof. split; vm_compute; reflexivity. Qed.

(** When the write is discarded and when not. *)
Lemma saveSubmissions_body_returns_iff env st u p subs :
  returns (saveSubmissions_body env st u p subs) = true ↔
  ∃ key, getSubmissionsStorageKey env u p = Return key
         ∧ Storage.blocked st = false
         ∧ Storage.usage (<[key := stringify (JArr subs)]> (Storage.items st))
           ≤ Storage.quota st.
Proof.
  unfold saveSubmissions_body, Storage.setItem. split.
  - destruct (getSubmissionsStorageKey env u p) as [key|]; cbn; [|done].
    destruct (Storage.blocked st); [done|].
    destruct (_ <=? _) eqn:Hq; [|done]. intros _. exists key.
    by apply N.leb_le in Hq.
  - intros (key & Hk & Hb & Hq%N.leb_le). rewrite Hk.
    cbn [mbind completion_bind]. by rewrite Hb, Hq.
Qed.

(** In a browser the key exists exactly for credentials of the Latin-1 range. *)
Lemma getSubmissionsStorageKey_returns_iff u p :
  returns (getSubmissionsStorageKey browser u p) = true
  ↔ Forall (λ c, hi c = zero) u ∧ Forall (λ c, hi c = zero) p.
Proof.
  unfold getSubmissionsStorageKey. cbn [btoa_defined browser].
  rewrite <- (Forall_app _ u p).
  assert (Forall (λ c, hi c = zero) (u ++ p)
          ↔ Forall (λ c, hi c = zero) (u ++ NUL :: p)) as ->.
  { rewrite !Forall_app, Forall_cons. cbn. tauto. }
  rewrite <- btoa_returns_iff. by destruct (Base64.btoa _).
Qed.

(** The amended C3 in the terms of the browser: credentials of the Latin-1
    range, a storage that is not blocked and has room for the printed list. *)
Lemma local_roundtrip_latin1 st u p (S : list FormData) :
  Forall (λ c, hi c = zero) u → Forall (λ c, hi c = zero) p →
  Storage.blocked st = false →
  (∀ key, getSubmissionsStorageKey browser u p = Return key →
          Storage.usage (<[key := stringify (JArr (obj <$> S))]> (Storage.items st))
          ≤ Storage.quota st) →
  loadSubmissions browser (saveSubmissions browser st u p (obj <$> S)) u p = obj <$> S.
Proof.
  intros Hu Hp Hb Hroom.
  assert (returns (saveSubmissions_body browser st u p (obj <$> S)) = true) as Hw.
  { apply saveSubmissions_body_returns_iff.
    destruct (getSubmissionsStorageKey browser u p) as [key|] eqn:Hkey.
    - exists key. split; [done|]. split; [done|]. by apply Hroom.
    - assert (returns (getSubmissionsStorageKey browser u p) = true) as Hr
        by (by apply getSubmissionsStorageKey_returns_iff).
      by rewrite Hkey in Hr. }
  unfold saveSubmissions.
  destruct (saveSubmissions_body browser st u p (obj <$> S)) as [st'|] eqn:E; [|done].
  cbn [try_catch]. by eapply roundtrip_of_write.
Qed.

(** C4, as amended. The key is a function of the platform and the
    credentials alone. For two distinct credential pairs whose usernames hold
    no NUL character (they may differ only in the password), the derived keys
    differ whenever both exist, and a write under one pair never changes what
    a read under the other pair returns. *)
Theorem storage_keys_isolate env u1 p1 u2 p2 :
  NUL ∉ u1 → NUL ∉ u2 → (u1, p1) ≠ (u2, p2) →
  (∀ k1 k2, getSubmissionsStorageKey env u1 p1 = Return k1 →
            getSubmissionsStorageKey env u2 p2 = Return k2 → k1 ≠ k2)
  ∧ (∀ st subs, loadSubmissions env (saveSubmissions env st u1 p1 subs) u2 p2
                = loadSubmissions env st u2 p2).
Proof.
  intros H1 H2 Hne. split.
  - intros k1 k2 Hk1 Hk2 ->.
    destruct (getSubmissionsStorageKey_inj env u1 p1 u2 p2 k2) as [-> ->]; done.
  - intros st subs. by apply isolation_of_write.
Qed.

Lemma storage_keys_isolate_witness :
  (NUL ∉ alice) ∧ ((alice, secret) ≠ (alice, hunter2))
  ∧ (getSubmissionsStorageKey browser alice secret
     ≠ getSubmissionsStorageKey browser alice hunter2)
  ∧ loadSubmissions browser
      (saveSubmissions browser empty_store alice secret (obj <$> [bob])) alice hunter2
    = loadSubmissions browser empty_store alice hunter2.
Proof.
  assert (NUL ∉ alice) as Hnul by (apply (bool_decide_unpack (NUL ∉ alice)); vm_compute; exact I).
  assert ((alice, secret) ≠ (alice, hunter2)) as Hne by (vm_compute; discriminate).
  destruct (storage_keys_isolate browser alice secret alice hunter2 Hnul Hnul Hne)
    as [Hkeys Hload].
  split; [exact Hnul|]. split; [exact Hne|]. split; [|apply Hload].
  destruct (getSubmissionsStorageKey browser alice secret) as [k1|] eqn:E1;
    [|vm_compute in E1; discriminate E1].
  destruct (getSubmissionsStorageKey browser alice hunter2) as [k2|] eqn:E2;
    [|vm_compute in E2; discriminate E2].
  intros [= ->]. by apply (Hkeys k2 k2).
Defined.

(** C4 as stated fails: a NUL inside the username moves the boundary between
    username and password, so two distinct pairs share a key, and what one
    wrote the other reads. *)
Lemma storage_key_collision :
  (lit "a" ++ NUL :: lit "b", lit "c") ≠ (lit "a", lit "b" ++ NUL :: lit "c")
  ∧ getSubmissionsStorageKey browser (lit "a" ++ NUL :: lit "b") (lit "c")
    = Return (lit "submissions:YQBiAGM=")
  ∧ getSubmissionsStorageKey browser (lit "a") (lit "b" ++ NUL :: lit "c")
    = Return (lit "submissions:YQBiAGM=")
  ∧ loadSubmissions browser empty_store (lit "a") (lit "b" ++ NUL :: lit "c") = []
  ∧ loadSubmissions browser
      (saveSubmissions browser empty_store (lit "a" ++ NUL :: lit "b") (lit "c")
         (obj <$> [bob]))
      (lit "a") (lit "b" ++ NUL :: lit "c")
    = obj <$> [bob].
Proof. repeat split; [vm_compute; discriminate|vm_compute; reflexivity..]. Qed.

(** C8. [loadSubmissions] is total: every exception of its [try] block ends in
    the empty list. It returns the parsed stored value when, and only when,
    the key can be derived, the storage can be read, a value is stored under
    the key, and that value parses to an array; a missing value, a value that
    does not parse, and a value that parses to anything but an array all give
    the empty list. *)
Theorem loadSubmissions_array_or_empty env st u p :
  loadSubmissions env st u p =
  match getSubmissionsStorageKey env u p with
  | Throw _ => []
  | Return key =>
      if Storage.blocked st then []
      else match Storage.items st !! key with
           | None => []
           | Some text =>
               match JSON.parse text with
               | Return (JArr l) => l
               | Return _ => []
               | Throw _ => []
               end
           end
  end.
Proof.
  rewrite loadSubmissions_cases.
  destruct (getSubmissionsStorageKey env u p); [|done].
  destruct (Storage.blocked st); [done|].
  destruct (Storage.items st !! a); [|done].
  by destruct (JSON.parse _) as [[]|].
Qed.

End Local_claims.

(** ** The remote adapters *)

(** Unfold a handler down to its adapter calls. *)
Ltac run_handler :=
  cbv [dispatch mbind M_bind mret M_ret lift set_state
       Basic.handleLogin Basic.handleLogout Basic.handleFormSubmit
       Basic.setLoggedIn Basic.setLoginError Basic.setSubmissions
       Basic.setCurrentPage Basic.setUsername
       Styled.handleLogin Styled.handleLogout Styled.handleFormSubmit
       Styled.setLoggedIn Styled.setLoginError Styled.setSubmissions
       Styled.setUsername];
  cbn [state sent fst snd].

(** Unfold an adapter down to the oracle. *)
Ltac run_adapter :=
  cbv [mbind M_bind mret M_ret lift fetch try_catch_M
       Basic.fetchSubmissions Basic.postSubmission
       Styled.fetchSubmissions Styled.postSubmission];
  cbn [state sent fst snd].

Section Remote_adapters.

Lemma basic_fetchSubmissions_run user net w :
  Basic.fetchSubmissions user net w =
  match URI.encodeURIComponent user with
  | Throw e => (Throw e, w)
  | Return query =>
      (match net (Basic.get_request query) with
       | NetworkError => Throw TypeError
       | Responds res => if ok res then json_of res else Return (JArr [])
       end,
       {| state := state w; sent := sent w ++ [Basic.get_request query] |})
  end.
Proof.
  run_adapter. destruct (URI.encodeURIComponent user) as [query|]; [|done].
  destruct (net _) as [|res]; [done|]. by destruct (ok res).
Qed.

Lemma styled_fetchSubmissions_run user net w :
  Styled.fetchSubmissions user net w =
  match URI.encodeURIComponent user with
  | Throw e => (Return (JArr []), w)
  | Return query =>
      (Return
         match net (Styled.get_request query) with
         | NetworkError => JArr []
         | Responds res => if ok res then try_catch (json_of res) (JArr []) else JArr []
         end,
       {| state := state w; sent := sent w ++ [Styled.get_request query] |})
  end.
Proof.
  run_adapter. destruct (URI.encodeURIComponent user) as [query|]; [|done].
  destruct (net _) as [|res]; [done|]. destruct (ok res); [|done].
  by destruct (json_of res).
Qed.

(** The adapter of [part_000] never throws. *)
Lemma styled_fetchSubmissions_total user net w :
  ∃ v w', Styled.fetchSubmissions user net w = (Return v, w').
Proof.
  rewrite styled_fetchSubmissions_run.
  destruct (URI.encodeURIComponent user); eauto.
Qed.

(** It degrades to the empty array on a network failure and on a status
    outside 200-299. *)
Lemma styled_fetchSubmissions_degrades user net w :
  (∀ query, URI.encodeURIComponent user = Return query →
            match net (Styled.get_request query) with
            | NetworkError => True
            | Responds res => ok res = false
            end) →
  (Styled.fetchSubmissions user net w).1 = Return (JArr []).
Proof.
  intros H. rewrite styled_fetchSubmissions_run.
  destruct (URI.encodeURIComponent user) as [query|]; [|done].
  specialize (H query eq_refl). cbn.
  destruct (net _) as [|res]; [done|]. by rewrite H.
Qed.

(** The adapter of [App.jsx] does the same on a status outside 200-299. *)
Lemma basic_fetchSubmissions_not_ok user net w query res :
  URI.encodeURIComponent user = Return query →
  net (Basic.get_request query) = Responds res → ok res = false →
  (Basic.fetchSubmissions user net w).1 = Return (JArr []).
Proof.
  intros Hq Hnet Hok. by rewrite basic_fetchSubmissions_run, Hq, Hnet, Hok.
Qed.

(** But every other failure leaves it as a rejection. *)
Lemma basic_fetchSubmissions_rejects user net w query :
  URI.encodeURIComponent user = Return query →
  net (Basic.get_request query) = NetworkError →
  (Basic.fetchSubmissions user net w).1 = Throw TypeError.
Proof. intros Hq Hnet. by rewrite basic_fetchSubmissions_run, Hq, Hnet. Qed.

Lemma with_username_props user formData :
  with_username user formData = (lit "username", JStr user) :: form_props formData.
Proof. reflexivity. Qed.

End Remote_adapters.

(** ** Login *)

Section Login.
Import Scenario.

Lemma falsy_false (s : jsstring) : s ≠ [] → falsy s = false.
Proof. by destruct s. Qed.

Lemma local_login_authenticates env user pass w :
  user ≠ [] → pass ≠ [] →
  Local.handleLogin env user pass w =
  {| Local.state :=
       {| Local.loggedIn := true; Local.loginError := [];
          Local.submissions :=
            Local.loadSubmissions env (Local.localStorage w) user pass;
          Local.currentPage := Local.currentPage (Local.state w);
          Local.auth := {| Local.username := user; Local.password := pass |} |};
     Local.localStorage := Local.localStorage w |}.
Proof.
  intros Hu Hp. unfold Local.handleLogin.
  by rewrite (falsy_false user), (falsy_false pass).
Qed.

Lemma styled_login_authenticates net user password s :
  user ≠ [] → password ≠ [] →
  ∃ v reqs,
    dispatch net s (Styled.handleLogin user password) =
    (Return (),
     {| state := {| Styled.loggedIn := true; Styled.loginError := [];
                    Styled.submissions := v; Styled.username := user |};
        sent := reqs |})
    ∧ ∀ w, (Styled.fetchSubmissions user net w).1 = Return v.
Proof.
  intros Hu Hp. run_handler.
  rewrite (falsy_false user), (falsy_false password) by done.
  cbn [orb]. rewrite styled_fetchSubmissions_run.
  destruct (URI.encodeURIComponent user) as [query|] eqn:Hq; cbn.
  - eexists _, _. split; [done|]. intros w.
    by rewrite styled_fetchSubmissions_run, Hq.
  - eexists _, _. split; [done|]. intros w.
    by rewrite styled_fetchSubmissions_run, Hq.
Qed.

(** In [App.jsx] the same holds whenever the read returns at all. *)
Lemma basic_login_authenticates net user password s query res v :
  user ≠ [] → password ≠ [] →
  URI.encodeURIComponent user = Return query →
  net (Basic.get_request query) = Responds res →
  (if ok res then json_of res else Return (JArr [])) = Return v →
  dispatch net s (Basic.handleLogin user password) =
  (Return (),
   {| state := {| Basic.loggedIn := true; Basic.loginError := [];
                  Basic.submissions := v;
                  Basic.currentPage := Basic.currentPage s;
                  Basic.username := user |};
      sent := [Basic.get_request query] |}).
Proof.
  intros Hu Hp Hq Hnet Hv. run_handler.
  rewrite (falsy_false user), (falsy_false password) by done.
  cbn [orb]. by rewrite basic_fetchSubmissions_run, Hq, Hnet, Hv.
Qed.

(** And when the request fails, it rejects with the username already set. *)
Lemma basic_login_rejects_on_network_failure net user password s query :
  user ≠ [] → password ≠ [] →
  URI.encodeURIComponent user = Return query →
  net (Basic.get_request query) = NetworkError →
  dispatch net s (Basic.handleLogin user password) =
  (Throw TypeError,
   {| state := {| Basic.loggedIn := Basic.loggedIn s;
                  Basic.loginError := Basic.loginError s;
                  Basic.submissions := Basic.submissions s;
                  Basic.currentPage := Basic.currentPage s;
                  Basic.username := user |};
      sent := [Basic.get_request query] |}).
Proof.
  intros Hu Hp Hq Hnet. run_handler.
  rewrite (falsy_false user), (falsy_false password) by done.
  cbn [orb]. by rewrite basic_fetchSubmissions_run, Hq, Hnet.
Qed.

End Login.

Section Login_claims.
Import Scenario.

(** C1. The claim holds of [part_000], whose [fetchSubmissions] wraps the
    request in [try]/[catch], and fails on [App.jsx], whose [fetchSubmissions]
    has none: with the network down ([fetch] rejects) the read of [App.jsx]
    rejects with the error of [fetch] instead of giving the empty array, and
    [handleLogin] rejects with it; on the same input the read of [part_000]
    gives the empty array and its login completes. *)
Theorem basic_fetchSubmissions_propagates_network_failure :
  (Basic.fetchSubmissions alice net_down {| state := Basic.initial; sent := [] |}).1
  = Throw TypeError
  ∧ (dispatch net_down Basic.initial (Basic.handleLogin alice secret)).1
    = Throw TypeError
  ∧ (Styled.fetchSubmissions alice net_down {| state := Styled.initial; sent := [] |}).1
    = Return (JArr [])
  ∧ (dispatch net_down Styled.initial (Styled.handleLogin alice secret)).1
    = Return ().
Proof. repeat split; vm_compute; reflexivity. Qed.

(** C5. With non-empty credentials, login in [App.jsx] does not reach the
    authenticated state when the read rejects: the network is down, or a
    proxy answers [200] with a page that is not JSON. The username is set,
    the list is not populated, [loggedIn] stays [false]. On the same inputs
    [part_000] ends authenticated with the empty list. *)
Theorem basic_login_stays_anonymous_when_read_rejects :
  dispatch net_down Basic.initial (Basic.handleLogin alice secret)
  = (Throw TypeError,
     {| state := {| Basic.loggedIn := false; Basic.loginError := [];
                    Basic.submissions := JArr []; Basic.currentPage := FormTab;
                    Basic.username := alice |};
        sent := [Basic.get_request alice] |})
  ∧ dispatch net_html Basic.initial (Basic.handleLogin alice secret)
    = (Throw SyntaxError,
       {| state := {| Basic.loggedIn := false; Basic.loginError := [];
                      Basic.submissions := JArr []; Basic.currentPage := FormTab;
                      Basic.username := alice |};
          sent := [Basic.get_request alice] |})
  ∧ dispatch net_down Styled.initial (Styled.handleLogin alice secret)
    = (Return (),
       {| state := {| Styled.loggedIn := true; Styled.loginError := [];
                      Styled.submissions := JArr []; Styled.username := alice |};
          sent := [Styled.get_request alice] |}).
Proof. repeat split; vm_compute; reflexivity. Qed.

(** C6. When the username or the password is empty, login in each of the
    three builds sets the error message, which is not empty and so is
    rendered, and changes nothing else: the authenticated flag, the
    credentials, the list and the page are those of the render, no request
    is issued and the storage is not touched. *)
Theorem login_rejects_empty_credentials user password :
  user = [] ∨ password = [] →
  required_message ≠ []
  ∧ (∀ env w,
       Local.handleLogin env user password w =
       {| Local.state :=
            {| Local.loggedIn := Local.loggedIn (Local.state w);
               Local.loginError := required_message;
               Local.submissions := Local.submissions (Local.state w);
               Local.currentPage := Local.currentPage (Local.state w);
               Local.auth := Local.auth (Local.state w) |};
          Local.localStorage := Local.localStorage w |})
  ∧ (∀ net s,
       dispatch net s (Basic.handleLogin user password) =
       (Return (),
        {| state := {| Basic.loggedIn := Basic.loggedIn s;
                       Basic.loginError := required_message;
                       Basic.submissions := Basic.submissions s;
                       Basic.currentPage := Basic.currentPage s;
                       Basic.username := Basic.username s |};
           sent := [] |}))
  ∧ (∀ net s,
       dispatch net s (Styled.handleLogin user password) =
       (Return (),
        {| state := {| Styled.loggedIn := Styled.loggedIn s;
                       Styled.loginError := required_message;
                       Styled.submissions := Styled.submissions s;
                       Styled.username := Styled.username s |};
           sent := [] |})).
Proof.
  intros Hempty.
  assert (falsy user || falsy password = true) as Hf.
  { destruct Hempty as [-> | ->]; [done|]. by rewrite orb_true_r. }
  split; [done|]. split; [|split].
  - intros env w. unfold Local.handleLogin. by rewrite Hf.
  - intros net s. run_handler. by rewrite Hf.
  - intros net s. run_handler. by rewrite Hf.
Qed.

Lemma login_rejects_empty_credentials_witness :
  (alice = [] ∨ ([] : jsstring) = [])
  ∧ Local.handleLogin Local.browser alice [] (local_start empty_store)
    = {| Local.state :=
           {| Local.loggedIn := false; Local.loginError := required_message;
              Local.submissions := []; Local.currentPage := FormTab;
              Local.auth := {| Local.username := []; Local.password := [] |} |};
         Local.localStorage := empty_store |}
  ∧ dispatch net_ok Basic.initial (Basic.handleLogin alice [])
    = (Return (),
       {| state := {| Basic.loggedIn := false; Basic.loginError := required_message;
                      Basic.submissions := JArr []; Basic.currentPage := FormTab;
                      Basic.username := [] |};
          sent := [] |}).
Proof.
  assert (alice = [] ∨ ([] : jsstring) = []) as H by (right; reflexivity).
  destruct (login_rejects_empty_credentials alice [] H) as (_ & HL & HB & _).
  split; [exact H|]. split; [apply HL|apply HB].
Defined.

(** C9. In both remote builds the value of a successful response goes into
    the list as it is: when the response has a status in 200-299 and its body
    parses to [v], login ends authenticated with [submissions] equal to [v],
    whatever [v] is. *)
Theorem remote_login_keeps_any_json net user password query res v :
  user ≠ [] → password ≠ [] →
  URI.encodeURIComponent user = Return query →
  ok res = true → json_of res = Return v →
  (net (Basic.get_request query) = Responds res →
   ∀ s, dispatch net s (Basic.handleLogin user password) =
        (Return (),
         {| state := {| Basic.loggedIn := true; Basic.loginError := [];
                        Basic.submissions := v;
                        Basic.currentPage := Basic.currentPage s;
                        Basic.username := user |};
            sent := [Basic.get_request query] |}))
  ∧ (net (Styled.get_request query) = Responds res →
     ∀ s, dispatch net s (Styled.handleLogin user password) =
          (Return (),
           {| state := {| Styled.loggedIn := true; Styled.loginError := [];
                          Styled.submissions := v; Styled.username := user |};
              sent := [Styled.get_request query] |})).
Proof.
  intros Hu Hp Hq Hok Hv. split; intros Hnet s.
  - eapply basic_login_authenticates; [done..|]. by rewrite Hok.
  - run_handler. rewrite (falsy_false user), (falsy_false password) by done.
    cbn [orb]. by rewrite styled_fetchSubmissions_run, Hq, Hnet, Hok, Hv.
Qed.

Lemma remote_login_keeps_any_json_witness :
  Basic.submissions
    (state (dispatch net_object Basic.initial (Basic.handleLogin alice secret)).2)
  = JObj [(lit "error", JStr (lit "no such user"))]
  ∧ Styled.submissions
      (state (dispatch net_object Styled.initial (Styled.handleLogin alice secret)).2)
    = JObj [(lit "error", JStr (lit "no such user"))].
Proof.
  destruct (remote_login_keeps_any_json net_object alice secret alice
              {| status := 200;
                 text := stringify (JObj [(lit "error", JStr (lit "no such user"))]) |}
              (JObj [(lit "error", JStr (lit "no such user"))]))
    as [HB HS];
    [vm_compute; discriminate|vm_compute; discriminate|vm_compute; reflexivity..|].
  split.
  - by rewrite (HB eq_refl Basic.initial).
  - by rewrite (HS eq_refl Styled.initial).
Defined.

(** The local read, given the same text, degrades it to the empty list. *)
Lemma local_read_degrades_object :
  Local.loadSubmissions Local.browser
    {| Storage.blocked := false; Storage.quota := 5000000;
       Storage.items :=
         {[ lit "submissions:YWxpY2UAc2VjcmV0" :=
              stringify (JObj [(lit "error", JStr (lit "no such user"))]) ]} |}
    alice secret
  = [].
Proof. vm_compute. reflexivity. Qed.

End Login_claims.

(** ** Submitting *)

Section Submit.
Import Scenario.

Lemma basic_submit_run net loggedIn loginError l page user formData :
  dispatch net
    {| Basic.loggedIn := loggedIn; Basic.loginError := loginError;
       Basic.submissions := JArr l; Basic.currentPage := page;
       Basic.username := user |}
    (Basic.handleFormSubmit formData)
  = match net (Basic.post_request user formData) with
    | NetworkError =>
        (Throw TypeError,
         {| state := {| Basic.loggedIn := loggedIn; Basic.loginError := loginError;
                        Basic.submissions := JArr l; Basic.currentPage := page;
                        Basic.username := user |};
            sent := [Basic.post_request user formData] |})
    | Responds _ =>
        (Return (),
         {| state := {| Basic.loggedIn := loggedIn; Basic.loginError := loginError;
                        Basic.submissions := JArr (l ++ [obj formData]);
                        Basic.currentPage := page; Basic.username := user |};
            sent := [Basic.post_request user formData] |})
    end.
Proof. run_handler. run_adapter. by destruct (net _). Qed.

Lemma styled_submit_run net loggedIn loginError l user formData :
  dispatch net
    {| Styled.loggedIn := loggedIn; Styled.loginError := loginError;
       Styled.submissions := JArr l; Styled.username := user |}
    (Styled.handleFormSubmit formData)
  = (Return (),
     {| state := {| Styled.loggedIn := loggedIn; Styled.loginError := loginError;
                    Styled.submissions := JArr (l ++ [obj formData]);
                    Styled.username := user |};
        sent := [Styled.post_request user formData] |}).
Proof. run_handler. run_adapter. by destruct (net _). Qed.

(** The local build appends every record, whatever the storage does. *)
Lemma local_submit_all_appends env records w :
  Local.submissions (Local.state (local_submit_all env records w))
  = Local.submissions (Local.state w) ++ (obj <$> records).
Proof.
  revert w. induction records as [|d records IH]; intros w; cbn.
  - by rewrite app_nil_r.
  - unfold local_submit_all in IH. rewrite IH. cbn. by rewrite <- app_assoc.
Qed.

(** So does [part_000], whatever the network does. *)
Lemma styled_submit_all_appends calls s l :
  Styled.submissions s = JArr l →
  Styled.submissions (styled_submit_all calls s) = JArr (l ++ (obj <$> calls.*2)).
Proof.
  revert s l. induction calls as [|[net d] calls IH]; intros s l Hs; cbn.
  - by rewrite app_nil_r.
  - destruct s as [li le sub u]. cbn in Hs. subst sub.
    rewrite styled_submit_run. cbn [snd state].
    unfold styled_submit_all in IH. erewrite IH; [|reflexivity].
    by rewrite <- app_assoc.
Qed.

(** [App.jsx] appends the records whose request resolved, and only those. *)
Lemma basic_submit_all_appends calls s l :
  Basic.submissions s = JArr l →
  Basic.submissions (basic_submit_all calls s)
  = JArr (l ++ (obj <$> (filter
        (λ call, resolves (call.1 (Basic.post_request (Basic.username s) call.2)))
        calls).*2)).
Proof.
  revert s l. induction calls as [|[net d] calls IH]; intros s l Hs.
  - cbn. by rewrite app_nil_r.
  - destruct s as [li le sub pg u]. cbn in Hs. subst sub.
    rewrite filter_cons. unfold basic_submit_all in *.
    cbn [fold_left fst snd Basic.username]. rewrite basic_submit_run.
    destruct (net (Basic.post_request u d)) eqn:Hnet; cbn [snd state resolves].
    + erewrite IH; [|reflexivity]. cbn [Basic.username].
      by rewrite decide_False by (by intros []).
    + erewrite IH; [|reflexivity]. cbn [Basic.username].
      rewrite decide_True by done. cbn. by rewrite <- app_assoc.
Qed.

(** C2. In [App.jsx] the handler awaits the request before it touches the
    list, and nothing catches: with the network down the submit rejects and
    the list is left without the record, while the same submit on an
    answering network appends it. [part_000], which sets the list first and
    catches in [postSubmission], appends the record on the same failure. *)
Theorem basic_submit_drops_record_on_network_failure :
  dispatch net_down (basic_session []) (Basic.handleFormSubmit bob)
  = (Throw TypeError,
     {| state := basic_session []; sent := [Basic.post_request alice bob] |})
  ∧ Basic.submissions
      (state (dispatch net_ok (basic_session []) (Basic.handleFormSubmit bob)).2)
    = JArr [obj bob]
  ∧ Basic.submissions
      (state (dispatch (net_status 500 []) (basic_session [])
                (Basic.handleFormSubmit bob)).2)
    = JArr [obj bob]
  ∧ dispatch net_down (styled_session []) (Styled.handleFormSubmit bob)
    = (Return (),
       {| state := styled_session [obj bob];
          sent := [Styled.post_request alice bob] |}).
Proof. repeat split; vm_compute; reflexivity. Qed.

(** C7. Three submits in one session of [App.jsx], the second while the
    network is down: the list ends with the first and the third record, the
    second is lost. The same calls in [part_000] give all three in order. *)
Theorem basic_session_loses_record_of_failed_post :
  Basic.submissions
    (basic_submit_all [(net_ok, bob); (net_down, carol); (net_ok, dave)]
       (basic_session []))
  = JArr (obj <$> [bob; dave])
  ∧ Styled.submissions
      (styled_submit_all [(net_ok, bob); (net_down, carol); (net_ok, dave)]
         (styled_session []))
    = JArr (obj <$> [bob; carol; dave]).
Proof. split; vm_compute; reflexivity. Qed.

(** C10. The object appended to the list is the form record itself, whose
    keys are the five field names. In the remote builds the username appears
    only in the body of the request, as the first property before the five
    fields; in the local build only the key under which the whole list is
    stored depends on the credentials. [App.jsx] appends nothing when its
    request rejects. *)
Theorem appended_record_is_form_data formData :
  (form_props formData).*1
  = [lit "name"; lit "email"; lit "phone"; lit "address"; lit "message"]
  ∧ (∀ env w,
       Local.handleFormSubmit env formData w =
       {| Local.state :=
            {| Local.loggedIn := Local.loggedIn (Local.state w);
               Local.loginError := Local.loginError (Local.state w);
               Local.submissions :=
                 Local.submissions (Local.state w) ++ [JObj (form_props formData)];
               Local.currentPage := Local.currentPage (Local.state w);
               Local.auth := Local.auth (Local.state w) |};
          Local.localStorage :=
            Local.saveSubmissions env (Local.localStorage w)
              (Local.username (Local.auth (Local.state w)))
              (Local.password (Local.auth (Local.state w)))
              (Local.submissions (Local.state w) ++ [JObj (form_props formData)]) |})
  ∧ (∀ net loggedIn loginError l user,
       dispatch net
         {| Styled.loggedIn := loggedIn; Styled.loginError := loginError;
            Styled.submissions := JArr l; Styled.username := user |}
         (Styled.handleFormSubmit formData)
       = (Return (),
          {| state := {| Styled.loggedIn := loggedIn;
                         Styled.loginError := loginError;
                         Styled.submissions := JArr (l ++ [JObj (form_props formData)]);
                         Styled.username := user |};
             sent :=
               [{| method := POST; url := lit "/api/submissions";
                   headers := Styled.API_HEADERS;
                   body := Some (stringify
                     (JObj ((lit "username", JStr user) :: form_props formData))) |}]
          |}))
  ∧ (∀ net loggedIn loginError l page user,
       (dispatch net
          {| Basic.loggedIn := loggedIn; Basic.loginError := loginError;
             Basic.submissions := JArr l; Basic.currentPage := page;
             Basic.username := user |}
          (Basic.handleFormSubmit formData)).2
       = {| state :=
              {| Basic.loggedIn := loggedIn; Basic.loginError := loginError;
                 Basic.submissions :=
                   JArr (l ++ match net (Basic.post_request user formData) with
                              | Responds _ => [JObj (form_props formData)]
                              | NetworkError => []
                              end);
                 Basic.currentPage := page; Basic.username := user |};
            sent :=
              [{| method := POST; url := lit "/api/submissions";
                  headers := [(lit "Content-Type", lit "application/json")];
                  body := Some (stringify
                    (JObj ((lit "username", JStr user) :: form_props formData))) |}]
         |}).
Proof.
  split; [reflexivity|]. split; [reflexivity|]. split.
  - intros. by rewrite styled_submit_run.
  - intros. rewrite basic_submit_run.
    destruct (net _); [|reflexivity]. cbn [snd]. by rewrite app_nil_r.
Qed.

(** Two submits of [App.jsx] issued from the same render, the second before
    the request of the first has resolved: each handler spreads the list of
    that render, and the later [setSubmissions] replaces the earlier one. *)
Lemma basic_overlapping_submits_keep_last :
  let render := basic_session [] in
  let first := Basic.handleFormSubmit bob render net_ok {| state := render; sent := [] |} in
  let second := Basic.handleFormSubmit carol render net_ok first.2 in
  Basic.submissions (state first.2) = JArr [obj bob]
  ∧ Basic.submissions (state second.2) = JArr [obj carol].
Proof. split; vm_compute; reflexivity. Qed.

(** Whatever is typed into the form, its object has the five keys. *)
Lemma form_keys_fixed (edits : list (field * jsstring)) :
  (form_props (fold_left (λ d e, handleChange d e.1 e.2) edits empty_form)).*1
  = [lit "name"; lit "email"; lit "phone"; lit "address"; lit "message"].
Proof. reflexivity. Qed.

End Submit.

(** ** The scenarios of the specification, on the local build *)

Section Scenarios.
Import Scenario.

Example first_login_is_empty :
  Local.submissions
    (Local.state (Local.handleLogin Local.browser alice secret (local_start empty_store)))
  = [].
Proof. vm_compute. reflexivity. Qed.

Example first_submit_is_stored :
  Local.submissions (Local.state after_first_submit) = [obj bob]
  ∧ Storage.items (Local.localStorage after_first_submit)
      !! lit "submissions:YWxpY2UAc2VjcmV0"
    = Some (jtext "[{'name':'Bob','email':'b@x.com','phone':'555','address':'1 Rd','message':'hi'}]").
Proof. split; vm_compute; reflexivity. Qed.

Example logout_forgets :
  Local.state (Local.handleLogout after_first_submit) = Local.initial.
Proof. vm_compute. reflexivity. Qed.

Example same_credentials_reload :
  Local.submissions
    (Local.state (Local.handleLogin Local.browser alice secret
                    (Local.handleLogout after_first_submit)))
  = [obj bob].
Proof. vm_compute. reflexivity. Qed.

Example other_password_sees_nothing :
  Local.submissions
    (Local.state (Local.handleLogin Local.browser alice hunter2
                    (Local.handleLogout after_first_submit)))
  = [].
Proof. vm_compute. reflexivity. Qed.

End Scenarios.

(** * Beyond the claims *)

(** ** What [part_001] shows *)

Section View_facts.
Import Local View LocalUI Scenario Sample.

Lemma row_of_record i d : row i (obj d) = Return (record_row (i + 1) d).
Proof. reflexivity. Qed.

Lemma rows_from_records i (S : list FormData) :
  rows_from i (obj <$> S) = Return (imap (λ j d, record_row (i + j + 1) d) S).
Proof.
  revert i. induction S as [|d S IH]; intros i; [done|].
  cbn [fmap list_fmap rows_from]. rewrite row_of_record.
  change (list_fmap FormData json obj S) with (obj <$> S). rewrite IH.
  cbn [mbind completion_bind imap]. f_equal. f_equal.
  - f_equal. lia.
  - apply imap_ext. intros j x _. cbn. f_equal. lia.
Qed.

Lemma rows_from_app i l1 l2 :
  rows_from i (l1 ++ l2) =
  rs1 ← rows_from i l1; rs2 ← rows_from (i + length l1) l2; Return (rs1 ++ rs2).
Proof.
  revert i. induction l1 as [|s l1 IH]; intros i; cbn [app rows_from length].
  - rewrite Nat.add_0_r. cbn. by destruct (rows_from i l2).
  - destruct (row i s) as [r|]; cbn [mbind completion_bind]; [|done].
    rewrite IH. replace (Datatypes.S i + length l1)%nat with (i + Datatypes.S (length l1))%nat by lia.
    destruct (rows_from (Datatypes.S i) l1) as [rs1|]; cbn [mbind completion_bind]; [|done].
    by destruct (rows_from _ l2).
Qed.

Lemma row_cases i s :
  (s = JNull ∧ row i s = Throw TypeError)
  ∨ (s ≠ JNull ∧ ∃ r, row i s = Return r ∧ number r = (i + 1)%nat).
Proof. destruct s; [by left|right; split; [done|by eexists]..]. Qed.

Lemma rows_from_throws i l :
  (∃ e, rows_from i l = Throw e) ↔ JNull ∈ l.
Proof.
  revert i. induction l as [|s l IH]; intros i; cbn [rows_from].
  - split; [by intros [? ?]|by intros ?%elem_of_nil].
  - rewrite elem_of_cons, <- (IH (Datatypes.S i)).
    destruct (row_cases i s) as [[-> ->]|(Hs & r & -> & _)]; cbn [mbind completion_bind].
    + split; [by left|eauto].
    + destruct (rows_from (Datatypes.S i) l) as [rs|e]; cbn [mbind completion_bind].
      * split; [by intros [? ?]|]. by intros [?|[? ?]].
      * split; [eauto|eauto].
Qed.

Lemma rows_from_error i l e : rows_from i l = Throw e → e = TypeError.
Proof.
  revert i. induction l as [|s l IH]; intros i; cbn [rows_from]; [done|].
  destruct (row_cases i s) as [[-> ->]|(Hs & r & -> & _)]; cbn [mbind completion_bind].
  - by intros [= <-].
  - destruct (rows_from (Datatypes.S i) l) as [rs|e'] eqn:E; cbn [mbind completion_bind];
      [done|]. intros [= <-]. by eapply IH.
Qed.

(** X1. [SubmissionsTable] of [part_001], given form records, shows the
    placeholder for the empty list and otherwise one row per record, in
    order, numbered from 1, whose five cells are the five strings of the
    record. *)
Theorem table_shows_records (S : list FormData) :
  SubmissionsTable (obj <$> S) =
  Return match S with
         | [] => NoSubmissionsYet
         | _ :: _ => Rows (imap (λ i d, record_row (i + 1) d) S)
         end.
Proof.
  unfold SubmissionsTable. rewrite length_fmap.
  destruct S as [|d S]; [done|]. rewrite bool_decide_eq_false_2 by done.
  by rewrite rows_from_records.
Qed.

(** X2. Appending an element whose row can be built leaves every row the
    table showed, with its number, and adds one row, numbered with the new
    length. *)
Theorem table_append_keeps_rows l s t r :
  SubmissionsTable l = Return t →
  row (length l) s = Return r →
  SubmissionsTable (l ++ [s]) = Return (Rows (rows_of t ++ [r]))
  ∧ number r = (length l + 1)%nat.
Proof.
  unfold SubmissionsTable. intros Ht Hr. split.
  - rewrite bool_decide_eq_false_2 by (rewrite length_app; cbn; lia).
    rewrite rows_from_app. cbn [rows_from Nat.add]. rewrite Hr.
    destruct l as [|x l].
    + cbn in Ht. injection Ht as <-. done.
    + rewrite bool_decide_eq_false_2 in Ht by done.
      destruct (rows_from 0 (x :: l)) as [rs|]; cbn in *; [|done].
      by injection Ht as <-.
  - destruct (row_cases (length l) s) as [[_ Hs]|(_ & r' & Hs & Hn)];
      rewrite Hs in Hr; [done|]. by injection Hr as <-.
Qed.

Lemma table_append_keeps_rows_witness :
  SubmissionsTable ((obj <$> [bob; carol]) ++ [obj dave])
  = Return (Rows (imap (λ i d, record_row (i + 1) d) [bob; carol]
                  ++ [record_row 3 dave])).
Proof.
  apply (table_append_keeps_rows (obj <$> [bob; carol]) (obj dave)
           (Rows (imap (λ i d, record_row (i + 1) d) [bob; carol]))
           (record_row 3 dave)); reflexivity.
Defined.

(** X3. [SubmissionsTable] throws exactly when the list holds a [null], and
    then a [TypeError]: the rows read [s.name] of every element. *)
Theorem table_throws_iff_null l :
  (SubmissionsTable l = Throw TypeError ↔ JNull ∈ l)
  ∧ (∀ e, SubmissionsTable l = Throw e → e = TypeError).
Proof.
  unfold SubmissionsTable. split; [|intros e].
  - case_bool_decide as Hl.
    + destruct l; [|done]. split; [done|by intros ?%elem_of_nil].
    + rewrite <- (rows_from_throws 0 l).
      destruct (rows_from 0 l) as [rs|e] eqn:E; cbn.
      * split; [done|by intros [? ?]].
      * apply rows_from_error in E as ->. split; eauto.
  - case_bool_decide; [done|].
    destruct (rows_from 0 l) as [rs|e'] eqn:E; cbn; [done|].
    intros [= <-]. by eapply rows_from_error.
Qed.

End View_facts.

(** ** The page of [part_001] over a run of events *)

Section LocalUI_facts.
Import Local View LocalUI Scenario Sample.

Lemma step_settled env ui e : settled ui → settled (step env ui e).
Proof.
  destruct ui as [[[li le subs pg [au ap]] st] sc].
  destruct sc as [u p| d |]; destruct e; cbn; try done;
    intros H; destruct_and!; simplify_eq/=;
    try match goal with p : page |- _ => destruct p end;
    try match goal with
        | |- context [handleLogin _ ?u ?p _] => destruct u; [|destruct p]
        end;
    cbn; repeat split; done.
Qed.

Lemma run_settled env events ui : settled ui → settled (run env events ui).
Proof.
  revert ui. induction events as [|e events IH]; intros ui H; [done|].
  cbn. apply IH. by apply step_settled.
Qed.

(** X4. Whatever the user does on the page of [part_001], from its first
    render on, between two events: while anonymous the login page is on the
    screen and [App] holds an empty list, empty credentials and the form
    tab; while authenticated the form or the list is on the screen as the
    tab says, no login error is set and both credentials are non-empty. In
    particular nothing of a session is left in memory after a logout. *)
Theorem local_page_settled env st events :
  settled (run env events (start st)).
Proof. apply run_settled. by cbn. Qed.

Lemma step_grows env ui e :
  settled ui → loggedIn (state (world ui)) = true → e ≠ LogoutClick →
  loggedIn (state (world (step env ui e))) = true
  ∧ auth (state (world (step env ui e))) = auth (state (world ui))
  ∧ submissions (state (world ui))
      `prefix_of` submissions (state (world (step env ui e))).
Proof.
  destruct ui as [[[li le subs pg [au ap]] st] sc].
  destruct sc as [u p| d |]; destruct e; cbn;
    intros Hs Hl Hne; try done; try (by destruct Hs as (Hf & _); rewrite Hf in Hl).
  repeat split; [done|]. by apply prefix_app_r.
Qed.

(** X5. On the page of [part_001], from an authenticated page as [App]
    leaves it between two events (the invariant of X4) and without a logout,
    whatever else the user does: the page stays authenticated with the same
    credentials, and the list [App] holds only grows at its end (the list
    before is a prefix of the list after). *)
Theorem local_list_only_grows env ui events :
  settled ui → loggedIn (state (world ui)) = true → LogoutClick ∉ events →
  loggedIn (state (world (run env events ui))) = true
  ∧ auth (state (world (run env events ui))) = auth (state (world ui))
  ∧ submissions (state (world ui))
      `prefix_of` submissions (state (world (run env events ui))).
Proof.
  revert ui. induction events as [|e events IH]; intros ui Hs Hl Hno; [done|].
  apply not_elem_of_cons in Hno as [Hne Hno].
  destruct (step_grows env ui e Hs Hl) as (Hl' & Ha' & Hp'); [done|].
  destruct (IH (step env ui e)) as (Hl'' & Ha'' & Hp''); [by apply step_settled|done..|].
  change (run env (e :: events) ui) with (run env events (step env ui e)).
  split; [done|]. split; [by rewrite Ha''|]. by etrans.
Qed.

Lemma local_list_only_grows_witness :
  submissions (state (world (run browser [NavTo ViewTab; NavTo FormTab;
     Change Name (lit "Eve"); FormSubmit]
     {| world := local_session [bob] empty_store; screen := AtForm empty_form |})))
  = (obj <$> [bob])
    ++ [obj {| name := lit "Eve"; email := []; phone := []; address := [];
               message := [] |}]
  ∧ (obj <$> [bob])
    `prefix_of` submissions (state (world (run browser [NavTo ViewTab; NavTo FormTab;
       Change Name (lit "Eve"); FormSubmit]
       {| world := local_session [bob] empty_store; screen := AtForm empty_form |}))).
Proof.
  split; [vm_compute; reflexivity|].
  apply (local_list_only_grows browser
           {| world := local_session [bob] empty_store; screen := AtForm empty_form |}).
  - vm_compute. repeat split; discriminate.
  - reflexivity.
  - intros H. repeat (apply elem_of_cons in H as [H|H]; [discriminate H|]).
    by apply elem_of_nil in H.
Defined.


Lemma key_has_prefix env u p key :
  getSubmissionsStorageKey env u p = Return key → lit "submissions:" `prefix_of` key.
Proof.
  unfold getSubmissionsStorageKey.
  destruct (if btoa_defined env then _ else _) as [encoded|]; cbn; [|done].
  intros [= <-]. by eexists.
Qed.

Lemma saveSubmissions_effect env st u p subs :
  saveSubmissions env st u p subs = st
  ∨ ∃ key, getSubmissionsStorageKey env u p = Return key
           ∧ Storage.blocked st = false
           ∧ saveSubmissions env st u p subs
             = {| Storage.blocked := false; Storage.quota := Storage.quota st;
                  Storage.items := <[key := stringify (JArr subs)]> (Storage.items st) |}.
Proof.
  unfold saveSubmissions, saveSubmissions_body, Storage.setItem.
  destruct (getSubmissionsStorageKey env u p) as [key|]; cbn; [|by left].
  destruct (Storage.blocked st) eqn:Hb; [by left|].
  destruct (_ <=? _); [|by left]. right. by exists key.
Qed.

Lemma step_storage env ui e :
  Storage.blocked (localStorage (world (step env ui e)))
  = Storage.blocked (localStorage (world ui))
  ∧ Storage.quota (localStorage (world (step env ui e)))
    = Storage.quota (localStorage (world ui))
  ∧ (∀ k, ¬ lit "submissions:" `prefix_of` k →
          Storage.items (localStorage (world (step env ui e))) !! k
          = Storage.items (localStorage (world ui)) !! k)
  ∧ (e ≠ FormSubmit →
     localStorage (world (step env ui e)) = localStorage (world ui)).
Proof.
  destruct ui as [[s st] sc].
  destruct sc as [u p| d |]; destruct e; cbn; try done;
    try (unfold handleLogin; by destruct (_ || _)).
  destruct (saveSubmissions_effect env st (username (auth s)) (password (auth s))
              (submissions s ++ [obj d])) as [->|(key & Hkey & Hb & ->)]; [done|].
  cbn. split; [done|]. split; [done|]. split; [|done].
  intros k Hk. apply lookup_insert_ne.
  intros ->. apply Hk. by eapply key_has_prefix.
Qed.

(** X6. On the page of [part_001] no event ever changes whether the
    storage is blocked, its quota, or the value of a key that does not start
    with [submissions:]; and only a form submit writes the storage at all. *)
Theorem local_page_storage_frame env events ui :
  Storage.blocked (localStorage (world (run env events ui)))
  = Storage.blocked (localStorage (world ui))
  ∧ Storage.quota (localStorage (world (run env events ui)))
    = Storage.quota (localStorage (world ui))
  ∧ (∀ k, ¬ lit "submissions:" `prefix_of` k →
          Storage.items (localStorage (world (run env events ui))) !! k
          = Storage.items (localStorage (world ui)) !! k)
  ∧ (FormSubmit ∉ events →
     localStorage (world (run env events ui)) = localStorage (world ui)).
Proof.
  revert ui. induction events as [|e events IH]; intros ui; [done|].
  change (run env (e :: events) ui) with (run env events (step env ui e)).
  destruct (IH (step env ui e)) as (Hb & Hq & Hk & Hall).
  destruct (step_storage env ui e) as (Hb' & Hq' & Hk' & Hone).
  split; [congruence|]. split; [congruence|]. split.
  - intros k Hpre. by rewrite Hk, Hk'.
  - intros [Hne Hno]%not_elem_of_cons. by rewrite Hall, Hone.
Qed.

(** X7. On the page of [part_001], going to the list and back to the form
    mounts a new [FormPage]: what was typed and not submitted is gone, and
    [App] and the storage are as before. *)
Theorem form_draft_lost_on_tab_switch env w d :
  loggedIn (state w) = true → currentPage (state w) = FormTab →
  run env [NavTo ViewTab; NavTo FormTab] {| world := w; screen := AtForm d |}
  = {| world := w; screen := AtForm empty_form |}.
Proof.
  destruct w as [[li le subs pg a] st]. cbn. intros -> ->. reflexivity.
Qed.

Lemma form_draft_lost_on_tab_switch_witness :
  run browser [NavTo ViewTab; NavTo FormTab]
    {| world := local_session [] empty_store; screen := AtForm bob |}
  = {| world := local_session [] empty_store; screen := AtForm empty_form |}.
Proof. apply form_draft_lost_on_tab_switch; reflexivity. Defined.

Lemma run_changes env w edits d :
  run env ((λ e, Change e.1 e.2) <$> edits) {| world := w; screen := AtForm d |}
  = {| world := w; screen := AtForm (typed_record edits d) |}.
Proof.
  revert d. induction edits as [|[f v] edits IH]; intros d; [done|].
  cbn. apply IH.
Qed.

Lemma field_value_handleChange d f v g :
  field_value (handleChange d f v) g
  = if bool_decide (f = g) then v else field_value d g.
Proof. by destruct f, g. Qed.

Lemma typed_record_field edits d f :
  field_value (typed_record edits d) f = last_typed f edits (field_value d f).
Proof.
  revert d. induction edits as [|[g v] edits IH]; intros d; [done|].
  cbn. unfold typed_record in IH. by rewrite IH, field_value_handleChange.
Qed.

(** X8. On the form of [part_001]: after any typing and a submit, the list
    has gained one object, the form record in which every field holds the
    last value typed into it (or what it held before, when none was), and
    the form is empty again. *)
Theorem submit_appends_what_was_typed env w d edits :
  loggedIn (state w) = true → currentPage (state w) = FormTab →
  let ui := run env (((λ e, Change e.1 e.2) <$> edits) ++ [FormSubmit])
              {| world := w; screen := AtForm d |} in
  submissions (state (world ui))
  = submissions (state w) ++ [obj (typed_record edits d)]
  ∧ screen ui = AtForm empty_form
  ∧ ∀ f, field_value (typed_record edits d) f = last_typed f edits (field_value d f).
Proof.
  intros Hl Hp ui. subst ui. unfold run. rewrite fold_left_app.
  fold (run env ((λ e, Change e.1 e.2) <$> edits) {| world := w; screen := AtForm d |}).
  rewrite run_changes. destruct w as [[li le subs pg a] st]. cbn in *. subst.
  split; [done|]. split; [done|]. intros f. apply typed_record_field.
Qed.

Lemma submit_appends_what_was_typed_witness :
  submissions (state (world (run browser
     [Change Name (lit "Bo"); Change Email (lit "b@x.com"); Change Name (lit "Bob");
      Change Phone (lit "555"); Change Address (lit "1 Rd"); Change Message (lit "hi");
      FormSubmit]
     {| world := local_session [] empty_store; screen := AtForm empty_form |})))
  = [obj bob].
Proof.
  apply (submit_appends_what_was_typed browser (local_session [] empty_store) empty_form
           [(Name, lit "Bo"); (Email, lit "b@x.com"); (Name, lit "Bob");
            (Phone, lit "555"); (Address, lit "1 Rd"); (Message, lit "hi")]);
    reflexivity.
Defined.

End LocalUI_facts.

(** ** Sessions of [part_001] and the storage *)

Section Local_sessions.
Import Local View LocalUI Scenario Sample.

Lemma SubmissionsTable_null l : JNull ∈ l → SubmissionsTable l = Throw TypeError.
Proof.
  intros Hl. unfold SubmissionsTable.
  rewrite bool_decide_eq_false_2 by (by destruct l; [apply elem_of_nil in Hl|]).
  apply (rows_from_throws 0) in Hl as [e He]. rewrite He.
  by apply rows_from_error in He as ->.
Qed.

(** X9. [loadSubmissions] checks that the stored value is an array, not what
    the array holds: when the value stored for the credentials parses to an
    array with a [null] in it, login on the page of [part_001] succeeds with
    that array as the list, and the render that follows throws a
    [TypeError] in [SubmissionsTable]. *)
Theorem stored_null_breaks_the_page env st u p key text l :
  u ≠ [] → p ≠ [] →
  getSubmissionsStorageKey env u p = Return key →
  Storage.blocked st = false →
  Storage.items st !! key = Some text →
  JSON.parse text = Return (JArr l) →
  JNull ∈ l →
  let ui := run env [TypeUsername u; TypePassword p; LoginSubmit] (start st) in
  loggedIn (state (world ui)) = true
  ∧ submissions (state (world ui)) = l
  ∧ render ui = Throw TypeError.
Proof.
  intros Hu Hp Hkey Hb Hitem Hparse Hnull ui. subst ui.
  cbn [run fold_left step start screen world after].
  rewrite local_login_authenticates by done.
  cbn [state world localStorage mounted].
  rewrite loadSubmissions_cases, Hkey.
  rewrite Hb, Hitem, Hparse.
  split; [done|]. split; [done|].
  unfold render. cbn. unfold FormPage.
  rewrite (bool_decide_eq_true_2 (0 < length l)%nat)
    by (destruct l; [by apply elem_of_nil in Hnull|cbn; lia]).
  by rewrite SubmissionsTable_null.
Qed.

Lemma stored_null_breaks_the_page_witness :
  render (run browser [TypeUsername alice; TypePassword secret; LoginSubmit]
            (start null_store))
  = Throw TypeError.
Proof.
  apply (stored_null_breaks_the_page browser null_store alice secret alice_key
           (lit "[null]") [JNull]);
    first [vm_compute; discriminate | vm_compute; reflexivity | left].
Defined.

(** X10. In [part_001], a submit whose write is kept makes the session
    durable: for a session of non-empty credentials holding form records,
    after the submit, a logout and a login with the same credentials, the
    list is again the old records followed by the new one. *)
Theorem relogin_shows_what_was_written env w d (S : list FormData) :
  username (auth (state w)) ≠ [] → password (auth (state w)) ≠ [] →
  submissions (state w) = obj <$> S →
  returns (saveSubmissions_body env (localStorage w) (username (auth (state w)))
             (password (auth (state w))) (obj <$> (S ++ [d]))) = true →
  submissions
    (state (handleLogin env (username (auth (state w))) (password (auth (state w)))
              (handleLogout (handleFormSubmit env d w))))
  = obj <$> (S ++ [d]).
Proof.
  destruct w as [[li le subs pg [u p]] st]. cbn. intros Hu Hp -> Hw.
  rewrite local_login_authenticates by done. cbn.
  replace ((obj <$> S) ++ [obj d]) with (obj <$> (S ++ [d]))
    by (by rewrite fmap_app).
  unfold saveSubmissions.
  destruct (saveSubmissions_body env st u p (obj <$> (S ++ [d]))) as [st'|] eqn:E; [|done].
  cbn [try_catch]. by eapply roundtrip_of_write.
Qed.

Lemma relogin_shows_what_was_written_witness :
  submissions
    (state (handleLogin browser alice secret
              (handleLogout (handleFormSubmit browser carol
                               (local_session [bob] empty_store)))))
  = obj <$> [bob; carol].
Proof.
  apply (relogin_shows_what_was_written browser (local_session [bob] empty_store)
           carol [bob]);
    first [vm_compute; discriminate | vm_compute; reflexivity].
Defined.

(** X11. In [part_001], a submit whose write is discarded shows the record
    for the rest of the session only: the list holds it, the storage is
    untouched, and after a logout and a login with the same credentials the
    list is what the storage held before the submit. *)
Theorem failed_write_is_lost_on_relogin env w d :
  username (auth (state w)) ≠ [] → password (auth (state w)) ≠ [] →
  returns (saveSubmissions_body env (localStorage w) (username (auth (state w)))
             (password (auth (state w))) (submissions (state w) ++ [obj d])) = false →
  submissions (state (handleFormSubmit env d w)) = submissions (state w) ++ [obj d]
  ∧ localStorage (handleFormSubmit env d w) = localStorage w
  ∧ submissions
      (state (handleLogin env (username (auth (state w))) (password (auth (state w)))
                (handleLogout (handleFormSubmit env d w))))
    = loadSubmissions env (localStorage w) (username (auth (state w)))
        (password (auth (state w))).
Proof.
  destruct w as [[li le subs pg [u p]] st]. cbn. intros Hu Hp Hw.
  rewrite local_login_authenticates by done. cbn. unfold saveSubmissions.
  by destruct (saveSubmissions_body env st u p (subs ++ [obj d])).
Qed.

Lemma failed_write_is_lost_on_relogin_witness :
  submissions (state (handleFormSubmit browser carol (local_session [bob] tight_store)))
  = obj <$> [bob; carol]
  ∧ submissions
      (state (handleLogin browser alice secret
                (handleLogout (handleFormSubmit browser carol
                                 (local_session [bob] tight_store)))))
    = obj <$> [bob].
Proof.
  destruct (failed_write_is_lost_on_relogin browser (local_session [bob] tight_store)
              carol) as (H1 & _ & H3);
    [vm_compute; discriminate|vm_compute; discriminate|vm_compute; reflexivity|].
  split; [exact H1|]. etrans; [exact H3|]. vm_compute. reflexivity.
Defined.

(** X12. In a browser, credentials with a character above U+00FF are never
    persisted by [part_001]: [btoa] throws inside both adapter functions, so
    [saveSubmissions] leaves the storage as it is and [loadSubmissions]
    returns the empty list, whatever the storage holds. *)
Theorem non_latin1_credentials_never_persist u p st subs :
  ¬ Forall (λ c, hi c = zero) (u ++ p) →
  saveSubmissions browser st u p subs = st
  ∧ loadSubmissions browser st u p = [].
Proof.
  intros Hnot.
  assert (returns (getSubmissionsStorageKey browser u p) = false) as Hk.
  { destruct (returns _) eqn:E; [|done].
    apply getSubmissionsStorageKey_returns_iff in E as [? ?].
    destruct Hnot. by apply Forall_app. }
  unfold saveSubmissions, saveSubmissions_body, loadSubmissions, loadSubmissions_body.
  by destruct (getSubmissionsStorageKey browser u p).
Qed.

Lemma non_latin1_credentials_never_persist_witness :
  saveSubmissions browser empty_store omega secret (obj <$> [bob]) = empty_store
  ∧ loadSubmissions browser tight_store omega secret = [].
Proof.
  assert (¬ Forall (λ c, hi c = zero) (omega ++ secret)) as H
    by (intros [H _]%Forall_cons; vm_compute in H; discriminate H).
  split;
    [apply (non_latin1_credentials_never_persist omega secret empty_store _ H)
    |apply (non_latin1_credentials_never_persist omega secret tight_store [] H)].
Defined.

End Local_sessions.

Section Local_renders.
Import Local View LocalUI Scenario Sample.

Lemma SubmissionsTable_records (S : list FormData) :
  ∃ t, SubmissionsTable (obj <$> S) = Return t.
Proof.
  unfold SubmissionsTable. case_bool_decide; [by eexists|].
  rewrite rows_from_records. by eexists.
Qed.

Lemma render_records ui (S : list FormData) :
  submissions (state (world ui)) = obj <$> S → ∃ view, render ui = Return view.
Proof.
  intros HS. unfold render. cbn zeta. rewrite HS.
  destruct (negb _); [by eexists|].
  destruct (SubmissionsTable_records S) as [t Ht].
  destruct (currentPage _).
  - unfold FormPage. rewrite Ht. cbn [mbind completion_bind].
    destruct (bool_decide (0 < length (obj <$> S))%nat); by eexists.
  - unfold ViewSubmissions. rewrite Ht. cbn [mbind completion_bind]. by eexists.
Qed.

Lemma loadSubmissions_own env st u p :
  (∀ k text, Storage.items st !! k = Some text →
     ∃ S : list FormData, text = stringify (JArr (obj <$> S))) →
  ∃ S : list FormData, loadSubmissions env st u p = obj <$> S.
Proof.
  intros Hown. rewrite loadSubmissions_cases.
  destruct (getSubmissionsStorageKey env u p) as [key|]; [|by exists []].
  destruct (Storage.blocked st); [by exists []|].
  destruct (Storage.items st !! key) as [text|] eqn:E; [|by exists []].
  destruct (Hown key text E) as [S ->]. rewrite parse_stringify_records. by exists S.
Qed.

Lemma step_own env ui e :
  (∀ k text, Storage.items (localStorage (world ui)) !! k = Some text →
     ∃ S : list FormData, text = stringify (JArr (obj <$> S))) →
  (∃ S : list FormData, submissions (state (world ui)) = obj <$> S) →
  (∀ k text, Storage.items (localStorage (world (step env ui e))) !! k = Some text →
     ∃ S : list FormData, text = stringify (JArr (obj <$> S)))
  ∧ ∃ S : list FormData, submissions (state (world (step env ui e))) = obj <$> S.
Proof.
  destruct ui as [[s st] sc]. cbn [world localStorage state]. intros Hown [S HS].
  destruct sc as [u p| d |]; destruct e; cbn -[stringify];
    try (split; [exact Hown|by exists S]).
  - unfold handleLogin. destruct (_ || _); cbn -[stringify];
      [split; [exact Hown|by exists S]|].
    split; [exact Hown|]. by apply loadSubmissions_own.
  - split; [|exists (S ++ [d]); by rewrite HS, fmap_app].
    destruct (saveSubmissions_effect env st (username (auth s)) (password (auth s))
                (submissions s ++ [obj d])) as [->|(key & _ & _ & ->)]; [done|].
    cbn -[stringify]. intros k text [[<- <-]|[_ ?]]%lookup_insert_Some; [|by eapply Hown].
    exists (S ++ [d]). by rewrite HS, fmap_app.
  - split; [exact Hown|]. by exists [].
  - split; [exact Hown|]. by exists [].
Qed.

(** X13. The page of [part_001] never fails on its own data: from a storage
    in which every value is the JSON text of a list of form records (as
    [saveSubmissions] writes them; the empty storage is one), whatever the
    user does, the list [App] holds is a list of form records and the
    render returns. *)
Theorem local_page_always_renders env st events :
  (∀ k text, Storage.items st !! k = Some text →
     ∃ S : list FormData, text = stringify (JArr (obj <$> S))) →
  (∃ S : list FormData,
     submissions (state (world (run env events (start st)))) = obj <$> S)
  ∧ ∃ view, render (run env events (start st)) = Return view.
Proof.
  intros Hown.
  assert ((∀ k text,
             Storage.items (localStorage (world (run env events (start st)))) !! k
             = Some text →
             ∃ S : list FormData, text = stringify (JArr (obj <$> S)))
          ∧ ∃ S : list FormData,
              submissions (state (world (run env events (start st)))) = obj <$> S)
    as [_ [S HS]].
  { assert (∃ S : list FormData, submissions (state (world (start st))) = obj <$> S)
      as Hs by (by exists []).
    change st with (localStorage (world (start st))) in Hown.
    revert Hown Hs. generalize (start st).
    induction events as [|e events IH]; intros ui Hown Hs; [done|].
    cbn [run fold_left]. apply IH; by apply step_own. }
  split; [by exists S|]. by eapply render_records.
Qed.

Lemma local_page_always_renders_witness :
  ∃ view,
    render (run browser [TypeUsername alice; TypePassword secret; LoginSubmit;
                         Change Name (lit "Eve"); FormSubmit; NavTo ViewTab]
              (start tight_store))
    = Return view.
Proof.
  apply (local_page_always_renders browser tight_store).
  unfold tight_store. cbn [Storage.items].
  intros k text [<- <-]%lookup_singleton_Some. by exists [bob].
Defined.

End Local_renders.

(** ** [DarkModeToggle] *)

Section Theme_facts.
Import Theme Sample.

Lemma sync_effect_returns d pg pg' :
  sync_effect d pg = (Return (), pg') →
  classList pg' = (if d then {[dark_class]} ∪ classList pg
                   else classList pg ∖ {[dark_class]})
  ∧ Storage.setItem (localStorage pg) theme_key (theme_of d)
    = Return (localStorage pg')
  ∧ prefers_dark pg' = prefers_dark pg.
Proof.
  destruct pg as [cl st pd].
  destruct d; cbv [sync_effect mbind D_bind classList_add classList_remove setItem];
    cbn [classList localStorage prefers_dark theme_of];
    destruct (Storage.setItem st theme_key _) as [st'|]; intros [= <-]; done.
Qed.

Lemma sync_effect_of_write d pg st' :
  Storage.setItem (localStorage pg) theme_key (theme_of d) = Return st' →
  sync_effect d pg
  = (Return (),
     {| classList := (if d then {[dark_class]} ∪ classList pg
                      else classList pg ∖ {[dark_class]});
        localStorage := st'; prefers_dark := prefers_dark pg |}).
Proof.
  destruct pg as [cl st pd]. cbn [classList localStorage prefers_dark].
  intros H.
  destruct d; cbv [sync_effect mbind D_bind classList_add classList_remove setItem];
    cbn [classList localStorage prefers_dark theme_of] in *; by rewrite H.
Qed.

Lemma setItem_items st k v st' :
  Storage.setItem st k v = Return st' →
  Storage.blocked st = false ∧ Storage.blocked st' = false
  ∧ Storage.items st' = <[k := v]> (Storage.items st).
Proof.
  unfold Storage.setItem. destruct (Storage.blocked st); [done|].
  destruct (_ <=? _); [|done]. by intros [= <-].
Qed.

Lemma class_kept (cl : gset jsstring) :
  (if bool_decide (dark_class ∈ cl) then {[dark_class]} ∪ cl
   else cl ∖ {[dark_class]}) = cl.
Proof.
  apply set_eq. intros c. case_bool_decide as H.
  - rewrite elem_of_union, elem_of_singleton. split; [by intros [->|]|by right].
  - rewrite elem_of_difference, elem_of_singleton. split; [by intros []|].
    intros Hc. split; [done|]. by intros ->.
Qed.

Lemma class_after (d : bool) (cl : gset jsstring) c :
  c ∈ (if d then {[dark_class]} ∪ cl else cl ∖ {[dark_class]})
  ↔ (if d then c = dark_class ∨ c ∈ cl else c ∈ cl ∧ c ≠ dark_class).
Proof.
  destruct d; by rewrite ?elem_of_union, ?elem_of_difference, ?elem_of_singleton.
Qed.

Lemma theme_of_dark d : bool_decide (Some (theme_of d) = Some (lit "dark")) = d.
Proof. by destruct d. Qed.

Lemma mount_of_write pg st' :
  Storage.setItem (localStorage pg) theme_key
    (theme_of (bool_decide (dark_class ∈ classList pg))) = Return st' →
  mount pg
  = (Return (bool_decide (dark_class ∈ classList pg)),
     {| classList := classList pg; localStorage := st';
        prefers_dark := prefers_dark pg |}).
Proof.
  intros Hw. pose proof (setItem_items _ _ _ _ Hw) as (_ & Hb & Hi).
  unfold mount. cbv [mbind D_bind classList_contains].
  rewrite (sync_effect_of_write _ _ _ Hw), class_kept.
  cbv [restore_effect getItem mbind D_bind Storage.getItem].
  cbn [localStorage]. rewrite Hb, Hi, lookup_insert_eq, theme_of_dark.
  by destruct (bool_decide (dark_class ∈ classList pg)).
Qed.

(** X14. [DarkModeToggle] never restores a saved theme: its first effect
    writes the theme of the initial state before the second effect reads
    the storage. When that write is kept, the toggle settles in the state
    read off the class of the root element, the storage holds that theme,
    and neither the theme saved before nor the preference of the system
    has any influence. *)
Theorem mount_ignores_saved_theme pg st' :
  Storage.setItem (localStorage pg) theme_key
    (theme_of (bool_decide (dark_class ∈ classList pg))) = Return st' →
  mount pg
  = (Return (bool_decide (dark_class ∈ classList pg)),
     {| classList := classList pg; localStorage := st';
        prefers_dark := prefers_dark pg |})
  ∧ Storage.items st' !! theme_key
    = Some (theme_of (bool_decide (dark_class ∈ classList pg))).
Proof.
  intros Hw. split; [by apply mount_of_write|].
  apply setItem_items in Hw as (_ & _ & ->). apply lookup_insert_eq.
Qed.

Lemma mount_ignores_saved_theme_witness :
  Storage.items (localStorage light_page) !! theme_key = Some (lit "dark")
  ∧ prefers_dark light_page = true
  ∧ (mount light_page).1 = Return false
  ∧ Storage.items (localStorage (mount light_page).2) !! theme_key
    = Some (lit "light").
Proof.
  split; [vm_compute; reflexivity|]. split; [reflexivity|].
  destruct (mount_ignores_saved_theme light_page
              {| Storage.blocked := false; Storage.quota := 5000000;
                 Storage.items := {[ theme_key := lit "light" ]} |}) as [Hm Hi].
  - vm_compute. reflexivity.
  - rewrite Hm. split; [vm_compute; reflexivity|]. cbn [snd localStorage].
    rewrite Hi. vm_compute. reflexivity.
Defined.

(** X15. [DarkModeToggle] uses the storage unguarded: when the storage is
    blocked, mounting it throws a [SecurityError] out of its first effect,
    the page left as it was. The toggle is part of [LoginPage], so this is
    the first render of [part_000]. *)
Theorem mount_throws_when_storage_blocked pg :
  Storage.blocked (localStorage pg) = true →
  mount pg = (Throw SecurityError, pg).
Proof.
  destruct pg as [cl st pd]. cbn [localStorage]. intros Hb.
  unfold mount. cbv [mbind D_bind classList_contains]. cbn [classList].
  destruct (bool_decide_reflect (dark_class ∈ cl)) as [Hin|Hout];
    cbv [sync_effect mbind D_bind classList_add classList_remove setItem
         Storage.setItem];
    cbn [classList localStorage prefers_dark]; rewrite Hb;
    do 2 f_equal.
  - rewrite <- (class_kept cl) at 2. by rewrite bool_decide_eq_true_2.
  - rewrite <- (class_kept cl) at 2. by rewrite bool_decide_eq_false_2.
Qed.

Lemma mount_throws_when_storage_blocked_witness :
  mount blocked_page = (Throw SecurityError, blocked_page).
Proof. apply mount_throws_when_storage_blocked. reflexivity. Defined.

Lemma toggles_returns n : ∀ d0 pg d pg',
  toggles n d0 pg = (Return d, pg') →
  d = xorb d0 (Nat.odd n)
  ∧ ((dark_class ∈ classList pg ↔ d0 = true) → (dark_class ∈ classList pg' ↔ d = true))
  ∧ (Storage.items (localStorage pg) !! theme_key = Some (theme_of d0) →
     Storage.items (localStorage pg') !! theme_key = Some (theme_of d))
  ∧ (∀ c, c ≠ dark_class → c ∈ classList pg' ↔ c ∈ classList pg)
  ∧ (∀ k, k ≠ theme_key →
       Storage.items (localStorage pg') !! k = Storage.items (localStorage pg) !! k).
Proof.
  induction n as [|n IH]; intros d0 pg d pg'.
  - intros [= <- <-]. by destruct d0.
  - cbn [toggles]. cbv [mbind D_bind toggle].
    destruct (sync_effect (negb d0) pg) as [[[]|e] pg1] eqn:E; [|done].
    apply sync_effect_returns in E as (Hc & Hw & _).
    apply setItem_items in Hw as (_ & _ & Hi).
    cbn [mret D_ret]. intros (-> & Hcl & Hit & Hoc & Hok)%IH.
    split; [rewrite Nat.odd_succ, <- Nat.negb_odd; by destruct d0, (Nat.odd n)|].
    split; [|split; [|split]].
    + intros _. apply Hcl. rewrite Hc, class_after.
      destruct d0; cbn; [|by split; [|left]]. split; [by intros []|done].
    + intros _. apply Hit. rewrite Hi. apply lookup_insert_eq.
    + intros c Hne. rewrite (Hoc c Hne), Hc, class_after.
      destruct d0; cbn; tauto.
    + intros k Hne. rewrite (Hok k Hne), Hi. by apply lookup_insert_ne.
Qed.

(** X16. A visit of [DarkModeToggle], mounting and [n] clicks: when no
    write to the storage fails, the state it ends in is the initial class
    of the root element flipped once per click, the class [dark] is on the
    root element exactly when the state is dark, the storage holds the
    theme of the state, and no other class and no other key is touched. *)
Theorem visit_keeps_theme_in_step n pg d pg' :
  visit n pg = (Return d, pg') →
  d = xorb (bool_decide (dark_class ∈ classList pg)) (Nat.odd n)
  ∧ (dark_class ∈ classList pg' ↔ d = true)
  ∧ Storage.items (localStorage pg') !! theme_key = Some (theme_of d)
  ∧ (∀ c, c ≠ dark_class → c ∈ classList pg' ↔ c ∈ classList pg)
  ∧ (∀ k, k ≠ theme_key →
       Storage.items (localStorage pg') !! k = Storage.items (localStorage pg) !! k).
Proof.
  unfold visit. cbv [mbind D_bind].
  destruct (mount pg) as [[d0|e] pg0] eqn:Em; [|done].
  destruct (Storage.setItem (localStorage pg) theme_key
              (theme_of (bool_decide (dark_class ∈ classList pg))))
    as [st'|e] eqn:Ew.
  - rewrite (mount_of_write _ _ Ew) in Em. injection Em as <- <-.
    pose proof (setItem_items _ _ _ _ Ew) as (_ & _ & Hi).
    intros (-> & Hcl & Hit & Hoc & Hok)%toggles_returns.
    cbn [classList localStorage] in *.
    split; [done|]. split; [apply Hcl; symmetry; apply bool_decide_eq_true|].
    split; [apply Hit; rewrite Hi; apply lookup_insert_eq|].
    split; [done|]. intros k Hne. rewrite (Hok k Hne), Hi.
    by apply lookup_insert_ne.
  - exfalso. revert Em. unfold mount. cbv [mbind D_bind classList_contains].
    destruct (bool_decide (dark_class ∈ classList pg));
      cbv [sync_effect mbind D_bind classList_add classList_remove setItem];
      cbn [classList localStorage prefers_dark theme_of] in *; by rewrite Ew.
Qed.

Lemma visit_keeps_theme_in_step_witness :
  (visit 3 light_page).1 = Return true
  ∧ (dark_class ∈ classList (visit 3 light_page).2 ↔ true = true)
  ∧ Storage.items (localStorage (visit 3 light_page).2) !! theme_key
    = Some (lit "dark").
Proof.
  assert (visit 3 light_page = (Return true, (visit 3 light_page).2)) as E
    by (vm_compute; reflexivity).
  split; [vm_compute; reflexivity|].
  destruct (visit_keeps_theme_in_step 3 light_page true _ E) as (_ & H & Hi & _).
  split; [exact H|exact Hi].
Defined.

End Theme_facts.

(** ** The requests of the remote builds *)

Section Remote_requests.
Import Scenario.

Lemma stringify_with_username user d rest :
  stringify (JObj (with_username user d)) ++ rest =
  latin1 "{" :: member (lit "username") user ++ latin1 ","
    :: member (lit "name") (name d) ++ latin1 ","
    :: member (lit "email") (email d) ++ latin1 ","
    :: member (lit "phone") (phone d) ++ latin1 ","
    :: member (lit "address") (address d) ++ latin1 ","
    :: member (lit "message") (message d) ++ latin1 "}" :: rest.
Proof.
  rewrite with_username_props. unfold form_props, member.
  cbn [stringify map join_comma fst snd]. cbn [app]. f_equal.
  by repeat (rewrite <- ?app_assoc; cbn [app]; f_equal).
Qed.

Lemma parse_value_with_username f user d rest :
  parse_value (8 + f) (stringify (JObj (with_username user d)) ++ rest)
  = Some (JObj (with_username user d), rest).
Proof.
  rewrite stringify_with_username.
  change (member (lit "username") user) with
    (latin1 dquote :: (quote_chars (lit "username") ++ [latin1 dquote])
       ++ latin1 ":" :: quote user).
  cbn [app Nat.add]. rewrite parse_value_object.
  change (latin1 dquote :: ((quote_chars (lit "username") ++ [latin1 dquote])
       ++ latin1 ":" :: quote user) ++ ?r) with (member (lit "username") user ++ r).
  rewrite !parse_members_comma, parse_members_brace. reflexivity.
Qed.

(** X17. The body of the POST request of both remote builds is a JSON text
    that parses back to an object with exactly six members in this order:
    the [username] of the session, then the five form fields as they were
    typed. Whatever the user types into the form, the text stays one object
    and the username member stays the session's. *)
Theorem post_body_parses_back user d :
  ∃ text,
    body (Basic.post_request user d) = Some text
    ∧ body (Styled.post_request user d) = Some text
    ∧ JSON.parse text
      = Return (JObj [(lit "username", JStr user);
                      (lit "name", JStr (name d)); (lit "email", JStr (email d));
                      (lit "phone", JStr (phone d));
                      (lit "address", JStr (address d));
                      (lit "message", JStr (message d))]).
Proof.
  exists (stringify (JObj (with_username user d))).
  split; [done|]. split; [done|].
  unfold JSON.parse.
  set (text := stringify (JObj (with_username user d))).
  assert (∃ f, (2 * length text + 2)%nat = (8 + f)%nat) as [f ->].
  { exists (2 * length text - 6)%nat.
    assert (3 ≤ length text)%nat; [|lia].
    subst text. rewrite <- (app_nil_r (stringify _)), stringify_with_username.
    rewrite member_shape. cbn [length]. rewrite length_app.
    assert (0 < length (quote_chars (lit "username")))%nat by (vm_compute; lia).
    lia. }
  subst text. rewrite <- (app_nil_r (stringify _)) at 1.
  by rewrite parse_value_with_username.
Qed.

End Remote_requests.

(** ** The pages of the remote builds over a run of events *)

Section Remote_runs.
Import Scenario.

(** X18. When the list kept from the login is not iterable (an object, a
    number, a boolean or [null], which both remote builds accept), every
    submit rejects with a [TypeError] and the page keeps its state; but
    [App.jsx] has sent the record to a server that answers by then, while
    [part_000] sends nothing. *)
Theorem submit_on_non_iterable_list net d sb ss e res :
  spread (Basic.submissions sb) = Throw e →
  spread (Styled.submissions ss) = Throw e →
  net (Basic.post_request (Basic.username sb) d) = Responds res →
  dispatch net sb (Basic.handleFormSubmit d)
  = (Throw e, {| state := sb; sent := [Basic.post_request (Basic.username sb) d] |})
  ∧ dispatch net ss (Styled.handleFormSubmit d)
    = (Throw e, {| state := ss; sent := [] |}).
Proof.
  intros Hb Hs Hnet. split.
  - run_handler. run_adapter. by rewrite Hnet, Hb.
  - run_handler. by rewrite Hs.
Qed.

Lemma submit_on_non_iterable_list_witness :
  let sb := {| Basic.loggedIn := true; Basic.loginError := [];
               Basic.submissions := JObj [(lit "error", JStr (lit "no such user"))];
               Basic.currentPage := FormTab; Basic.username := alice |} in
  let ss := {| Styled.loggedIn := true; Styled.loginError := [];
               Styled.submissions := JNull; Styled.username := alice |} in
  dispatch net_ok sb (Basic.handleFormSubmit bob)
  = (Throw TypeError, {| state := sb; sent := [Basic.post_request alice bob] |})
  ∧ dispatch net_ok ss (Styled.handleFormSubmit bob)
    = (Throw TypeError, {| state := ss; sent := [] |}).
Proof.
  intros sb ss.
  apply (submit_on_non_iterable_list net_ok bob sb ss TypeError
           {| status := 200; text := lit "[]" |}); reflexivity.
Defined.

Lemma styled_step_settled s call : styled_settled s → styled_settled (styled_step s call).
Proof.
  destruct s as [li le subs user], call as [net [u p| |d|pg]];
    unfold styled_settled, styled_step;
    cbn [snd fst Styled.loggedIn Styled.loginError Styled.submissions Styled.username];
    destruct li; try done.
  - cbn. intros [-> ->].
    destruct u as [|c u]; [done|]. destruct p as [|c' p]; [done|].
    destruct (styled_login_authenticates net (c :: u) (c' :: p)
                {| Styled.loggedIn := false; Styled.loginError := le;
                   Styled.submissions := JArr []; Styled.username := [] |})
      as (v & reqs & -> & _); done.
  - intros [Hu ->]. run_handler. cbn [Styled.submissions].
    destruct (spread subs); [|done]. run_adapter. by destruct (net _).
Qed.

Lemma basic_step_settled s call : basic_settled s → basic_settled (basic_step s call).
Proof.
  destruct s as [li le subs pg user], call as [net [u p| |d|pg']];
    unfold basic_settled, basic_step;
    cbn [snd fst Basic.loggedIn Basic.loginError Basic.submissions
         Basic.currentPage Basic.username];
    destruct li; try done.
  - cbn. intros [-> ->].
    destruct u as [|c u]; [done|]. destruct p as [|c' p]; [done|].
    run_handler. cbn [falsy orb]. rewrite basic_fetchSubmissions_run.
    destruct (URI.encodeURIComponent (c :: u)) as [query|]; [|done].
    destruct (net _) as [|res]; [done|]. cbn.
    destruct (ok res); [|done]. by destruct (json_of res).
  - intros [Hu ->]. cbn [andb]. case_bool_decide; [|done].
    run_handler. run_adapter. destruct (net _); [done|].
    cbn [Basic.submissions]. by destruct (spread subs).
Qed.

(** X19. In both remote builds, from the first render on and whatever the
    network does, when each handler has settled before the next event
    fires: an anonymous page holds the empty list (nothing of a session
    survives a logout or a failed login), and an authenticated page has a
    non-empty username and shows no login error. *)
Theorem remote_pages_settled calls :
  styled_settled (styled_run calls Styled.initial)
  ∧ basic_settled (basic_run calls Basic.initial).
Proof.
  split.
  - assert (styled_settled Styled.initial) as H by done. revert H.
    generalize Styled.initial. induction calls as [|c calls IH]; intros s H; [done|].
    apply IH. by apply styled_step_settled.
  - assert (basic_settled Basic.initial) as H by done. revert H.
    generalize Basic.initial. induction calls as [|c calls IH]; intros s H; [done|].
    apply IH. by apply basic_step_settled.
Qed.

End Remote_runs.

(** ** The URL of the read request *)

Section URI_facts.
Import URI Scenario.

Lemma code_lt c : code c < 65536.
Proof.
  destruct c as [h l]. unfold code. cbn [hi lo].
  pose proof (N_ascii_bounded h). pose proof (N_ascii_bounded l). lia.
Qed.

Lemma code_inj c d : code c = code d → c = d.
Proof.
  destruct c as [h l], d as [h' l']. unfold code. cbn [hi lo]. intros H.
  pose proof (N_ascii_bounded h). pose proof (N_ascii_bounded l).
  pose proof (N_ascii_bounded h'). pose proof (N_ascii_bounded l').
  assert (N_of_ascii h = N_of_ascii h' ∧ N_of_ascii l = N_of_ascii l') as [Hh Hl] by lia.
  apply (f_equal ascii_of_N) in Hh, Hl. rewrite !ascii_N_embedding in Hh, Hl.
  by subst.
Qed.

Lemma percent_inj_below n1 n2 :
  (n1 < 256)%nat → (n2 < 256)%nat →
  percent (N.of_nat n1) = percent (N.of_nat n2) → n1 = n2.
Proof.
  assert (forallb (λ i, forallb (λ j,
            implb (bool_decide (percent (N.of_nat i) = percent (N.of_nat j)))
                  (bool_decide (i = j))) (seq 0 256)) (seq 0 256) = true) as Hall
    by (vm_compute; reflexivity).
  intros H1 H2 Heq. rewrite forallb_forall in Hall.
  specialize (Hall n1 ltac:(apply in_seq; lia)). rewrite forallb_forall in Hall.
  specialize (Hall n2 ltac:(apply in_seq; lia)).
  rewrite (bool_decide_eq_true_2 _ Heq) in Hall. by apply bool_decide_eq_true in Hall.
Qed.

Lemma percent_app_inj b1 b2 r1 r2 :
  b1 < 256 → b2 < 256 → percent b1 ++ r1 = percent b2 ++ r2 → b1 = b2 ∧ r1 = r2.
Proof.
  intros H1 H2 H. apply app_inj_1 in H as [Hp Hr]; [|done]. split; [|done].
  rewrite <- (N2Nat.id b1), <- (N2Nat.id b2) in Hp |- *.
  apply percent_inj_below in Hp; [by rewrite Hp|lia..].
Qed.

Lemma utf8_cases cp :
  cp < 1114112 →
  (cp < 128 ∧ utf8 cp = [cp])
  ∨ (128 ≤ cp < 2048 ∧ utf8 cp = [192 + cp / 64; 128 + cp mod 64])
  ∨ (2048 ≤ cp < 65536
     ∧ utf8 cp = [224 + cp / 4096; 128 + (cp / 64) mod 64; 128 + cp mod 64])
  ∨ (65536 ≤ cp
     ∧ utf8 cp = [240 + cp / 262144; 128 + (cp / 4096) mod 64;
                  128 + (cp / 64) mod 64; 128 + cp mod 64]).
Proof.
  intros H. unfold utf8.
  destruct (N.ltb_spec cp 128); [by left|].
  destruct (N.ltb_spec cp 2048); [right; left; by split|].
  destruct (N.ltb_spec cp 65536); [right; right; left; by split|].
  right; right; right; by split.
Qed.

Ltac div_lia := zify; Z.to_euclidean_division_equations; lia.

Lemma escape_app_inj cp1 cp2 t1 t2 :
  cp1 < 1114112 → cp2 < 1114112 →
  escape cp1 ++ t1 = escape cp2 ++ t2 → cp1 = cp2 ∧ t1 = t2.
Proof.
  intros H1 H2. unfold escape.
  destruct (utf8_cases cp1 H1) as [[? ->]|[[? ->]|[[? ->]|[? ->]]]];
    destruct (utf8_cases cp2 H2) as [[? ->]|[[? ->]|[[? ->]|[? ->]]]];
    cbn [fmap list_fmap concat]; rewrite <- ?app_assoc; cbn [app];
    intros Heq;
    repeat (apply percent_app_inj in Heq as [? Heq]; [|div_lia..]);
    first [exfalso; div_lia | split; [div_lia|done]].
Qed.


Lemma escape_head cp : ∃ t, escape cp = latin1 "%" :: t.
Proof.
  unfold escape, utf8.
  destruct (cp <? 128); [by eexists|]. destruct (cp <? 2048); [by eexists|].
  destruct (cp <? 65536); by eexists.
Qed.

Lemma surrogate_bounds c :
  (is_high_surrogate c = true ↔ 55296 ≤ code c ≤ 56319)
  ∧ (is_low_surrogate c = true ↔ 56320 ≤ code c ≤ 57343).
Proof.
  unfold is_high_surrogate, is_low_surrogate.
  rewrite !andb_true_iff, !N.leb_le. tauto.
Qed.

Lemma encodeURIComponent_cons c r q :
  encodeURIComponent (c :: r) = Return q →
  (unreserved c = true ∧ ∃ t, encodeURIComponent r = Return t ∧ q = c :: t)
  ∨ (unreserved c = false
     ∧ ∃ cp r' t,
         encodeURIComponent r' = Return t ∧ q = escape cp ++ t
         ∧ cp < 1114112 ∧ (length r' ≤ length r)%nat
         ∧ ((is_high_surrogate c = false ∧ r' = r ∧ cp = code c)
            ∨ (is_high_surrogate c = true
               ∧ ∃ d, r = d :: r' ∧ is_low_surrogate d = true
                      ∧ cp = pair_code_point c d))).
Proof.
  cbn [encodeURIComponent]. destruct (unreserved c).
  - destruct (encodeURIComponent r) as [t|] eqn:E; [|done]. intros [= <-]. left. eauto.
  - intros H. right. split; [done|]. revert H.
    destruct (is_low_surrogate c); [done|].
    destruct (is_high_surrogate c) eqn:Hh.
    + destruct r as [|d r']; [done|]. destruct (is_low_surrogate d) eqn:Hl; [|done].
      destruct (encodeURIComponent r') as [t|] eqn:E; [|done]. intros [= <-].
      exists (pair_code_point c d), r', t.
      pose proof (proj1 (proj1 (surrogate_bounds c)) Hh).
      pose proof (proj1 (proj2 (surrogate_bounds d)) Hl). unfold pair_code_point.
      split; [done|]. split; [done|]. split; [lia|]. split; [cbn; lia|].
      right. split; [done|]. by exists d.
    + destruct (encodeURIComponent r) as [t|] eqn:E; [|done]. intros [= <-].
      exists (code c), r, t. pose proof (code_lt c).
      split; [done|]. split; [done|]. split; [lia|]. split; [done|]. by left.
Qed.

Lemma encodeURIComponent_inj s1 : ∀ s2 q,
  encodeURIComponent s1 = Return q → encodeURIComponent s2 = Return q → s1 = s2.
Proof.
  remember (length s1) as n eqn:Hn. revert s1 Hn.
  induction (lt_wf n) as [n _ IH]. intros s1 -> s2 q H1 H2.
  destruct s1 as [|c1 r1], s2 as [|c2 r2]; [done| | |].
  - injection H1 as <-.
    apply encodeURIComponent_cons in H2
      as [(_ & t & _ & ?)|(_ & cp & r' & t & _ & Hq & _)]; [done|].
    by destruct (escape_head cp) as [t' Ht']; rewrite Ht' in Hq.
  - injection H2 as <-.
    apply encodeURIComponent_cons in H1
      as [(_ & t & _ & ?)|(_ & cp & r' & t & _ & Hq & _)]; [done|].
    by destruct (escape_head cp) as [t' Ht']; rewrite Ht' in Hq.
  - apply encodeURIComponent_cons in H1
      as [(Hu1 & t1 & E1 & ->)|(Hu1 & cp1 & r1' & t1 & E1 & -> & Hcp1 & Hlen1 & Hsrc1)];
    apply encodeURIComponent_cons in H2
      as [(Hu2 & t2 & E2 & Hq)|(Hu2 & cp2 & r2' & t2 & E2 & Hq & Hcp2 & Hlen2 & Hsrc2)].
    + injection Hq as -> ->. f_equal.
      by apply (IH (length r1) ltac:(cbn; lia) r1 eq_refl r2 t2).
    + destruct (escape_head cp2) as [t' Ht']. rewrite Ht' in Hq.
      injection Hq as -> _. by vm_compute in Hu1.
    + destruct (escape_head cp1) as [t' Ht']. rewrite Ht' in Hq.
      injection Hq as <- _. by vm_compute in Hu2.
    + apply escape_app_inj in Hq as [-> ->]; [|done..].
      assert (r1' = r2') as ->
        by (by apply (IH (length r1') ltac:(cbn; lia) r1' eq_refl r2' t2)).
      destruct Hsrc1 as [(Hh1 & -> & Hc1)|(Hh1 & d1 & -> & Hl1 & Hc1)],
               Hsrc2 as [(Hh2 & -> & Hc2)|(Hh2 & d2 & -> & Hl2 & Hc2)].
      * f_equal. apply code_inj. congruence.
      * exfalso. pose proof (code_lt c1). unfold pair_code_point in Hc2. lia.
      * exfalso. pose proof (code_lt c2). unfold pair_code_point in Hc1. lia.
      * apply surrogate_bounds in Hh1, Hh2, Hl1, Hl2.
        unfold pair_code_point in *.
        assert (code c1 = code c2 ∧ code d1 = code d2) as [?%code_inj ?%code_inj]
          by lia.
        by subst.
Qed.

End URI_facts.

Section Read_requests.
Import URI Scenario.

Lemma basic_login_requests net s u p r :
  r ∈ sent (dispatch net s (Basic.handleLogin u p)).2 →
  ∃ q, encodeURIComponent u = Return q ∧ r = Basic.get_request q.
Proof.
  run_handler. destruct (falsy u || falsy p); [by intros ?%elem_of_nil|].
  rewrite basic_fetchSubmissions_run.
  destruct (encodeURIComponent u) as [q|]; [|by intros ?%elem_of_nil].
  cbn [state sent app].
  destruct (net _) as [|res]; [|destruct (ok res); [destruct (json_of res)|]];
    cbn [sent]; (intros [->|?%elem_of_nil]%elem_of_cons; [|done]); eauto.
Qed.

Lemma styled_login_requests net s u p r :
  r ∈ sent (dispatch net s (Styled.handleLogin u p)).2 →
  ∃ q, encodeURIComponent u = Return q ∧ r = Styled.get_request q.
Proof.
  run_handler. destruct (falsy u || falsy p); [by intros ?%elem_of_nil|].
  rewrite styled_fetchSubmissions_run.
  destruct (encodeURIComponent u) as [q|]; [|by intros ?%elem_of_nil].
  cbn [state sent app]. intros [->|?%elem_of_nil]%elem_of_cons; [|done]. eauto.
Qed.

(** X20. In both remote builds the URL of the read request identifies the
    user: logins of two different usernames, whatever the passwords, the
    network and the state, never request the same URL. *)
Theorem logins_request_different_urls u1 u2 :
  u1 ≠ u2 →
  (∀ net1 net2 s1 s2 p1 p2 r1 r2,
     r1 ∈ sent (dispatch net1 s1 (Basic.handleLogin u1 p1)).2 →
     r2 ∈ sent (dispatch net2 s2 (Basic.handleLogin u2 p2)).2 →
     url r1 ≠ url r2)
  ∧ (∀ net1 net2 s1 s2 p1 p2 r1 r2,
       r1 ∈ sent (dispatch net1 s1 (Styled.handleLogin u1 p1)).2 →
       r2 ∈ sent (dispatch net2 s2 (Styled.handleLogin u2 p2)).2 →
       url r1 ≠ url r2).
Proof.
  intros Hne. split; intros net1 net2 s1 s2 p1 p2 r1 r2.
  - intros (q1 & E1 & ->)%basic_login_requests (q2 & E2 & ->)%basic_login_requests.
    cbn [url Basic.get_request]. intros Hq%app_inv_head. subst q2.
    by apply Hne, (encodeURIComponent_inj u1 u2 q1).
  - intros (q1 & E1 & ->)%styled_login_requests (q2 & E2 & ->)%styled_login_requests.
    cbn [url Styled.get_request]. intros Hq%app_inv_head. subst q2.
    by apply Hne, (encodeURIComponent_inj u1 u2 q1).
Qed.

Lemma logins_request_different_urls_witness :
  alice ≠ secret
  ∧ url (Basic.get_request alice) ≠ url (Basic.get_request secret)
  ∧ url (Styled.get_request alice) ≠ url (Styled.get_request secret).
Proof.
  assert (alice ≠ secret) as Hne by discriminate. split; [exact Hne|].
  destruct (logins_request_different_urls alice secret Hne) as [Hb Hs].
  split.
  - apply (Hb net_ok net_down Basic.initial Basic.initial secret alice);
      vm_compute; left.
  - apply (Hs net_ok net_down Styled.initial Styled.initial secret alice);
      vm_compute; left.
Defined.

Lemma hex_unreserved n : unreserved (latin1 (nth n upper_hex "0"%char)) = true.
Proof. do 16 (destruct n as [|n]; [reflexivity|]). by destruct n. Qed.

Lemma escape_safe cp :
  Forall (λ c, unreserved c = true ∨ c = latin1 "%") (escape cp).
Proof.
  unfold escape. apply Forall_concat, Forall_fmap, Forall_forall. intros b _.
  unfold percent. apply Forall_cons. split; [by right|].
  apply Forall_cons. split; [left; apply hex_unreserved|].
  apply Forall_cons. split; [left; apply hex_unreserved|]. constructor.
Qed.

Lemma encodeURIComponent_safe s : ∀ q,
  encodeURIComponent s = Return q →
  Forall (λ c, unreserved c = true ∨ c = latin1 "%") q.
Proof.
  remember (length s) as n eqn:Hn. revert s Hn.
  induction (lt_wf n) as [n _ IH]. intros s -> q H.
  destruct s as [|c r]; [injection H as <-; constructor|].
  apply encodeURIComponent_cons in H
    as [(Hu & t & E & ->)|(Hu & cp & r' & t & E & -> & _ & Hlen & _)].
  - constructor; [by left|].
    by apply (IH (length r) ltac:(cbn; lia) r eq_refl).
  - apply Forall_app. split; [apply escape_safe|].
    by apply (IH (length r') ltac:(cbn; lia) r' eq_refl).
Qed.

(** X21. In both remote builds, whatever username is typed, every request
    a login sends is a GET without a body whose URL is
    [/api/submissions?username=] followed only by unreserved characters and
    [%]: a username cannot add a second query parameter, a fragment or a
    path to the request. *)
Theorem read_url_holds_one_parameter net u p sb ss :
  Forall (λ r, ∃ q, url r = lit "/api/submissions?username=" ++ q
                    ∧ Forall (λ c, unreserved c = true ∨ c = latin1 "%") q
                    ∧ method r = GET ∧ body r = None)
    (sent (dispatch net sb (Basic.handleLogin u p)).2)
  ∧ Forall (λ r, ∃ q, url r = lit "/api/submissions?username=" ++ q
                      ∧ Forall (λ c, unreserved c = true ∨ c = latin1 "%") q
                      ∧ method r = GET ∧ body r = None)
      (sent (dispatch net ss (Styled.handleLogin u p)).2).
Proof.
  split; apply Forall_forall; intros r.
  - intros (q & E & ->)%basic_login_requests. exists q.
    split; [done|]. split; [by eapply encodeURIComponent_safe|done].
  - intros (q & E & ->)%styled_login_requests. exists q.
    split; [done|]. split; [by eapply encodeURIComponent_safe|done].
Qed.

End Read_requests.
